(** * The growable byte buffer of the web server (code/buffer/buffer.cpp)

    A shallow embedding of [class Buffer]: a [std::vector<char>] with a read
    cursor and a write cursor, the append / ensure-capacity / make-space
    policy, and the two descriptor-facing transfers [ReadFd] and [WriteFd].

    Conventions of the embedding
    - a [size_t] is a [Z] in [0, 2^64); every [size_t] operation of the source
      is followed by the reduction [size_t] (wrap-around written out);
    - the backing store is a [list byte]; pointers into it are offsets from
      [BeginPtr_()];
    - [assert] aborts the process and [std::vector] throws [std::length_error]
      beyond [max_size()]: both are results of the [outcome] type;
    - [readv] and [write] are the two system calls; what the descriptor does
      in the one call a transfer issues is an argument of the model. *)

From Stdlib Require Import ZArith Lia Init.Byte.
From stdpp Require Import base list.

Local Open Scope Z_scope.

(** * The program *)

(** ** Machine integers *)

Definition SIZE_MAX : Z := 2 ^ 64 - 1.

Definition INT_MAX : Z := 2 ^ 31 - 1.
Definition INT_MIN : Z := - 2 ^ 31.

(** Conversion to [size_t], and the result of [size_t] arithmetic. *)
Definition size_t (z : Z) : Z := z mod 2 ^ 64.

(** ** Results of fallible code *)

Inductive outcome (A : Type) : Type :=
| Ok (a : A)      (* normal return *)
| AssertFail      (* an [assert] failed: the process aborts *)
| LengthError.    (* [std::length_error] thrown by the vector *)

Arguments Ok {A} a.

Arguments AssertFail {A}.

Arguments LengthError {A}.

Definition bind {A B : Type} (m : outcome A) (k : A -> outcome B) : outcome B :=
  match m with
  | Ok a => k a
  | AssertFail => AssertFail
  | LengthError => LengthError
  end.

Notation "'do' x <- m ; k" := (bind m (fun x => k))
  (at level 10, x name, m at level 100, k at level 200).

Notation "'run' m ; k" := (bind m (fun _ => k))
  (at level 10, m at level 100, k at level 200).

Definition cassert (c : bool) : outcome unit :=
  if c then Ok tt else AssertFail.

(** ** Raw memory *)

Abbreviation byte := Byte.byte.

Definition x00 : byte := Byte.x00.

(** [n] bytes of [mem] from offset [off] on (what [std::string(p, n)] and
    [write(fd, p, n)] read). *)
Definition mem_read (mem : list byte) (off n : Z) : list byte :=
  take (Z.to_nat n) (drop (Z.to_nat off) mem).

(** [std::copy(src, src + |src|, mem + d)] for a source outside [mem]: one
    byte after the other, front to back.  (A store past the end is undefined
    in C++; stdpp's insert leaves the list alone there.) *)
Fixpoint copy_into (src : list byte) (d : nat) (mem : list byte) : list byte :=
  match src with
  | [] => mem
  | x :: src' => copy_into src' (S d) (<[d := x]> mem)
  end.

(** [std::copy(mem + s, mem + s + n, mem + d)] inside one array: the same
    forward loop, source and destination may overlap. *)
Fixpoint copy_within (n s d : nat) (mem : list byte) : list byte :=
  match n with
  | O => mem
  | S n' =>
      match mem !! s with
      | Some x => copy_within n' (S s) (S d) (<[d := x]> mem)
      | None => mem
      end
  end.

(** [bzero(mem + d, n)]. *)
Fixpoint bzero (n d : nat) (mem : list byte) : list byte :=
  match n with
  | O => mem
  | S n' => bzero n' (S d) (<[d := x00]> mem)
  end.

(** ** std::vector<char> *)

(** The vector's [max_size()]: [PTRDIFF_MAX] on a 64-bit platform.  A vector
    asked for more elements throws [std::length_error]; a request within
    [max_size()] is taken to succeed (running out of memory is not modelled). *)
Definition max_size : Z := 2 ^ 63 - 1.

Definition vec_size (v : list byte) : Z := Z.of_nat (length v).

(** [std::vector<char> v(n)]: [n] zero bytes. *)
Definition vec_new (n : Z) : outcome (list byte) :=
  if max_size <? n then LengthError else Ok (replicate (Z.to_nat n) x00).

(** [v.resize(n)]: the elements of the vector, at the indices below
    [size()], after the call: the first [n] of them, or all of them followed
    by zero bytes.  (Bytes that a shrinking [resize] leaves in the vector's
    storage past [size()] are not elements of the vector and are not
    described.) *)
Definition vec_resize (n : Z) (v : list byte) : outcome (list byte) :=
  if max_size <? n then LengthError else Ok (resize (Z.to_nat n) x00 v).

(** ** The buffer *)

(** Modelled from the spec: the class declaration (buffer.h) is not among the
    sources.  The spec gives the store as "an ordered, contiguous, resizable
    sequence of bytes" and the two cursors as indices into it; the source
    uses them as a [std::vector<char>] ([buffer_.size()], [buffer_.resize],
    [buffer_.begin()]) and as [size_t] counters. *)
Record Buffer : Type := mkBuffer {
  buffer_ : list byte;
  readPos_ : Z;
  writePos_ : Z
}.

Definition set_buffer (v : list byte) (b : Buffer) : Buffer :=
  mkBuffer v (readPos_ b) (writePos_ b).

Definition set_readPos (r : Z) (b : Buffer) : Buffer :=
  mkBuffer (buffer_ b) r (writePos_ b).

Definition set_writePos (w : Z) (b : Buffer) : Buffer :=
  mkBuffer (buffer_ b) (readPos_ b) w.

(** [Buffer::Buffer(int initBuffersize)]; the [int] is converted to the
    vector's [size_type]. *)
Definition Buffer_ctor (initBuffersize : Z) : outcome Buffer :=
  do v <- vec_new (size_t initBuffersize);
  Ok (mkBuffer v 0 0).

Definition ReadableBytes (b : Buffer) : Z :=
  size_t (writePos_ b - readPos_ b).

Definition WritableBytes (b : Buffer) : Z :=
  size_t (vec_size (buffer_ b) - writePos_ b).

Definition PrependableBytes (b : Buffer) : Z :=
  readPos_ b.

(** Pointers are offsets from [BeginPtr_()]. *)
Definition BeginPtr_ (b : Buffer) : Z := 0.

Definition Peek (b : Buffer) : Z := BeginPtr_ b + readPos_ b.

Definition BeginWrite (b : Buffer) : Z := BeginPtr_ b + writePos_ b.

Definition BeginWriteConst (b : Buffer) : Z := BeginPtr_ b + writePos_ b.

Definition Retrieve (len : Z) (b : Buffer) : outcome Buffer :=
  run cassert (len <=? ReadableBytes b);
  Ok (set_readPos (size_t (readPos_ b + len)) b).

Definition RetrieveUntil (end_ : Z) (b : Buffer) : outcome Buffer :=
  run cassert (Peek b <=? end_);
  Retrieve (size_t (end_ - Peek b)) b.

Definition RetrieveAll (b : Buffer) : Buffer :=
  mkBuffer (bzero (length (buffer_ b)) 0 (buffer_ b)) 0 0.

Definition RetrieveAllToStr (b : Buffer) : list byte * Buffer :=
  let str := mem_read (buffer_ b) (Peek b) (ReadableBytes b) in
  (str, RetrieveAll b).

Definition HasWritten (len : Z) (b : Buffer) : Buffer :=
  set_writePos (size_t (writePos_ b + len)) b.

Definition MakeSpace_ (len : Z) (b : Buffer) : outcome Buffer :=
  if size_t (WritableBytes b + PrependableBytes b) <? len then
    do v <- vec_resize (size_t (writePos_ b + len + 1)) (buffer_ b);
    Ok (set_buffer v b)
  else
    let readable := ReadableBytes b in
    let v := copy_within (Z.to_nat (writePos_ b - readPos_ b))
               (Z.to_nat (readPos_ b)) 0 (buffer_ b) in
    let b1 := set_readPos 0 (set_buffer v b) in
    let b2 := set_writePos (size_t (readPos_ b1 + readable)) b1 in
    run cassert (readable =? ReadableBytes b2);
    Ok b2.

Definition EnsureWriteable (len : Z) (b : Buffer) : outcome Buffer :=
  do b' <- (if WritableBytes b <? len then MakeSpace_ len b else Ok b);
  run cassert (len <=? WritableBytes b');
  Ok b'.

(** [Append(const char* str, size_t len)].  A pointer is null ([None]) or
    points to a sequence of bytes, of which the call reads the first [len]. *)
Definition Append (str : option (list byte)) (len : Z) (b : Buffer) : outcome Buffer :=
  run cassert (bool_decide (is_Some str));
  do b1 <- EnsureWriteable len b;
  let src := take (Z.to_nat len) (default [] str) in
  let v := copy_into src (Z.to_nat (BeginWrite b1)) (buffer_ b1) in
  Ok (HasWritten len (set_buffer v b1)).

(** The overloads all funnel into the primitive above. *)
Definition Append_string (str : list byte) (b : Buffer) : outcome Buffer :=
  Append (Some str) (vec_size str) b.

Definition Append_void (data : option (list byte)) (len : Z) (b : Buffer) : outcome Buffer :=
  run cassert (bool_decide (is_Some data));
  Append data len b.

(** The argument of [Append(const Buffer& buff)] is a reference: to a buffer
    of its own, or to the receiver itself ([b.Append(b)]). *)
Inductive buffer_arg : Type :=
| OtherBuffer (buff : Buffer)
| ThisBuffer.

(** [buff.Peek()] as the pointer [Append] receives.  A vector without
    elements has no storage ([begin()] is null), so the pointer is null; the
    buffers met here never shrink their store, so a store without elements
    never had any. *)
Definition Peek_ptr (buff : Buffer) : option (list byte) :=
  if vec_size (buffer_ buff) =? 0 then None
  else Some (drop (Z.to_nat (Peek buff)) (buffer_ buff)).

(** [Append(const Buffer& buff)]: [Append(buff.Peek(), buff.ReadableBytes())].
    Pointer and length are taken before [Append] runs.  With another buffer
    the bytes behind the pointer stay what they were.  With the receiver
    itself the pointer is into the receiver's own store: the bytes copied are
    those found at the old read position after [EnsureWriteable] has run
    (the copy is a [memmove]); when [EnsureWriteable] resizes the store the
    vector may move its elements and leave the pointer dangling, which is
    undefined and not modelled ([None]). *)
Definition Append_Buffer (buff : buffer_arg) (b : Buffer) : option (outcome Buffer) :=
  match buff with
  | OtherBuffer buff => Some (Append (Peek_ptr buff) (ReadableBytes buff) b)
  | ThisBuffer =>
      let str := Peek b in
      let len := ReadableBytes b in
      if (WritableBytes b <? len) &&
         (size_t (WritableBytes b + PrependableBytes b) <? len)
      then None
      else Some (
        run cassert (bool_decide (is_Some (Peek_ptr b)));
        do b1 <- EnsureWriteable len b;
        let src := mem_read (buffer_ b1) str len in
        let v := copy_into src (Z.to_nat (BeginWrite b1)) (buffer_ b1) in
        Ok (HasWritten len (set_buffer v b1)))
  end.

(** ** The two system calls *)

(** What a descriptor does in the next call issued on it. *)
Inductive read_source : Type :=
| ReadFails (e : Z)                  (* the call fails, [errno] becomes [e] *)
| ReadDelivers (avail : list byte).  (* the bytes ready to be read *)

Inductive write_sink : Type :=
| WriteFails (e : Z)                 (* the call fails, [errno] becomes [e] *)
| WriteAccepts (room : nat).         (* how many bytes the descriptor takes *)

Inductive syscall : Type :=
| SysReadv (iov0_len iov1_len : Z)
| SysWrite (buf : list byte).

(** What the process sees around a call: [errno], and whatever the stack
    holds where [ReadFd] allocates its scratch array. *)
Record Env : Type := mkEnv {
  errno : Z;
  stack : list byte
}.

Record readv_result : Type := mkReadv {
  rv_ret : Z;
  rv_errno : Z;
  rv_mem : list byte;     (* the memory of iov[0] after the call *)
  rv_buff : list byte     (* the memory of iov[1] after the call *)
}.

(** [readv(fd, iov, 2)] with iov[0] = [mem + base0, len0) and iov[1] = all of
    [buff]: at most [len0 + len1] bytes are transferred, iov[0] is filled
    before iov[1]; a failure returns -1, sets [errno], and transfers nothing. *)
Definition readv (fd : read_source) (errno0 : Z)
    (mem : list byte) (base0 len0 : Z) (buff : list byte) (len1 : Z) : readv_result :=
  match fd with
  | ReadFails e => mkReadv (-1) e mem buff
  | ReadDelivers avail =>
      let d := take (Z.to_nat len0 + Z.to_nat len1) avail in
      mkReadv (Z.of_nat (length d)) errno0
        (copy_into (take (Z.to_nat len0) d) (Z.to_nat base0) mem)
        (copy_into (drop (Z.to_nat len0) d) 0 buff)
  end.

(** [write(fd, buf, count)], [buf] being the [count] bytes offered: the
    descriptor takes at most [room] of them. *)
Definition write (fd : write_sink) (errno0 : Z) (buf : list byte) : Z * Z :=
  match fd with
  | WriteFails e => (-1, e)
  | WriteAccepts room => (Z.of_nat (Nat.min room (length buf)), errno0)
  end.

(** What a transfer leaves behind: the returned count, the caller's error
    slot, the buffer, and the system calls it issued. *)
Record transfer : Type := mkTransfer {
  t_ret : Z;
  t_saveErrno : Z;
  t_buf : Buffer;
  t_calls : list syscall
}.

Definition BUFF_SIZE : Z := 65535.

Definition ReadFd (fd : read_source) (env : Env) (saveErrno : Z) (b : Buffer)
    : outcome transfer :=
  let buff := resize (Z.to_nat BUFF_SIZE) x00 (stack env) in
  let writable := WritableBytes b in
  let iov0_base := BeginPtr_ b + writePos_ b in
  let iov0_len := writable in
  let iov1_len := BUFF_SIZE in
  let r := readv fd (errno env) (buffer_ b) iov0_base iov0_len buff iov1_len in
  let calls := [SysReadv iov0_len iov1_len] in
  let len := rv_ret r in
  let b0 := set_buffer (rv_mem r) b in
  if len <? 0 then
    Ok (mkTransfer len (rv_errno r) b0 calls)
  else if size_t len <=? writable then
    Ok (mkTransfer len saveErrno (set_writePos (size_t (writePos_ b0 + len)) b0) calls)
  else
    let b1 := set_writePos (vec_size (buffer_ b0)) b0 in
    do b2 <- Append (Some (rv_buff r)) (size_t (len - writable)) b1;
    Ok (mkTransfer len saveErrno b2 calls).

Definition WriteFd (fd : write_sink) (env : Env) (saveErrno : Z) (b : Buffer)
    : transfer :=
  let readSize := ReadableBytes b in
  let buf := mem_read (buffer_ b) (Peek b) readSize in
  let '(len, errno') := write fd (errno env) buf in
  let calls := [SysWrite buf] in
  if len <? 0 then
    mkTransfer len errno' b calls
  else
    mkTransfer len saveErrno (set_readPos (size_t (readPos_ b + len)) b) calls.

(** * Vocabulary of the specification *)

(** ** The state a buffer is meant to be in *)

(** The cursor invariant of the data model. *)
Definition Inv (b : Buffer) : Prop :=
  0 <= readPos_ b <= writePos_ b /\ writePos_ b <= vec_size (buffer_ b).

(** A well-formed buffer: the cursor invariant, on a vector no larger than a
    vector can be. *)
Definition wf (b : Buffer) : Prop :=
  Inv b /\ vec_size (buffer_ b) <= max_size.

(** The payload: the bytes at the indices [readPos, writePos). *)
Definition readable (b : Buffer) : list byte :=
  mem_read (buffer_ b) (readPos_ b) (writePos_ b - readPos_ b).

(** ** What making space leaves behind *)

(** The buffer [MakeSpace_] leaves when it grows the store, and the one it
    leaves when it compacts. *)
Definition grown (len : Z) (b : Buffer) : Buffer :=
  set_buffer (resize (Z.to_nat (writePos_ b + len + 1)) x00 (buffer_ b)) b.

Definition compacted (b : Buffer) : Buffer :=
  mkBuffer
    (copy_within (Z.to_nat (writePos_ b - readPos_ b)) (Z.to_nat (readPos_ b)) 0 (buffer_ b))
    0 (writePos_ b - readPos_ b).

(** What the space-making policy owes its caller. *)
Definition keeps_payload (len : Z) (b b' : Buffer) : Prop :=
  wf b' /\ readable b' = readable b /\
  ReadableBytes b' = ReadableBytes b /\ len <= WritableBytes b'.

(** A request is allocatable when the store it would need, if it needs a
    larger one, is no larger than a vector can be. *)
Definition allocatable (len : Z) (b : Buffer) : Prop :=
  WritableBytes b + PrependableBytes b < len -> writePos_ b + len + 1 <= max_size.

Definition ensured (len : Z) (b : Buffer) : Buffer :=
  if decide (len <= WritableBytes b) then b
  else if decide (WritableBytes b + PrependableBytes b < len) then grown len b
  else compacted b.

(** The buffer after [src] has been stored at the write cursor and the cursor
    moved past it. *)
Definition written (src : list byte) (b : Buffer) : Buffer :=
  mkBuffer (copy_into src (Z.to_nat (writePos_ b)) (buffer_ b))
    (readPos_ b) (writePos_ b + vec_size src).

(** ** Transfers *)

(** A transfer [t] that delivered the [n] bytes [d] and lost none. *)
Definition no_loss (b : Buffer) (n : Z) (d : list byte) (t : transfer) : Prop :=
  t_ret t = n /\
  t_calls t = [SysReadv (WritableBytes b) BUFF_SIZE] /\
  wf (t_buf t) /\
  ReadableBytes (t_buf t) = ReadableBytes b + n /\
  readable (t_buf t) = readable b ++ d /\
  (n <= WritableBytes b ->
     writePos_ (t_buf t) = writePos_ b + n /\
     readPos_ (t_buf t) = readPos_ b /\
     vec_size (buffer_ (t_buf t)) = vec_size (buffer_ b)) /\
  (WritableBytes b < n ->
     exists b1 scratch,
       writePos_ b1 = vec_size (buffer_ b) /\
       vec_size (buffer_ b1) = vec_size (buffer_ b) /\
       readable b1 = readable b ++ take (Z.to_nat (WritableBytes b)) d /\
       take (Z.to_nat (n - WritableBytes b)) scratch =
         drop (Z.to_nat (WritableBytes b)) d /\
       Append (Some scratch) (n - WritableBytes b) b1 = Ok (t_buf t)).

(** A caller that re-invokes [WriteFd], once per entry of [fds]; it collects
    the returned counts. *)
Fixpoint WriteFd_repeat (fds : list write_sink) (env : Env) (saveErrno : Z) (b : Buffer)
    : list Z * Buffer :=
  match fds with
  | [] => ([], b)
  | fd :: fds' =>
      let t := WriteFd fd env saveErrno b in
      let '(rets, b') := WriteFd_repeat fds' env (t_saveErrno t) (t_buf t) in
      (t_ret t :: rets, b')
  end.

(** The bytes retired by a series of calls: the sum of the counts that are
    not failures. *)
Definition retired (rets : list Z) : Z :=
  foldr (fun r acc => Z.max 0 r + acc) 0 rets.

(** ** Sequences of calls *)

(** The public operations, as calls with their arguments. *)
Inductive op : Type :=
| OpRetrieve (len : Z)
| OpRetrieveUntil (end_ : Z)
| OpRetrieveAll
| OpRetrieveAllToStr
| OpHasWritten (len : Z)
| OpAppend (str : option (list byte)) (len : Z)
| OpEnsureWriteable (len : Z)
| OpReadFd (fd : read_source) (env : Env) (saveErrno : Z)
| OpWriteFd (fd : write_sink) (env : Env) (saveErrno : Z).

Definition exec (o : op) (b : Buffer) : outcome Buffer :=
  match o with
  | OpRetrieve len => Retrieve len b
  | OpRetrieveUntil end_ => RetrieveUntil end_ b
  | OpRetrieveAll => Ok (RetrieveAll b)
  | OpRetrieveAllToStr => Ok (snd (RetrieveAllToStr b))
  | OpHasWritten len => Ok (HasWritten len b)
  | OpAppend str len => Append str len b
  | OpEnsureWriteable len => EnsureWriteable len b
  | OpReadFd fd env saveErrno => do t <- ReadFd fd env saveErrno b; Ok (t_buf t)
  | OpWriteFd fd env saveErrno => Ok (t_buf (WriteFd fd env saveErrno b))
  end.

(** The arguments of a call are [size_t] values. *)
Definition typed (o : op) : Prop :=
  match o with
  | OpRetrieve len | OpHasWritten len | OpAppend _ len | OpEnsureWriteable len =>
      0 <= len <= SIZE_MAX
  | _ => True
  end.

(** What the caller owes: [HasWritten] is told no more than is writable; a
    request for space is one whose [writePos + len + 1] is a [size_t]. *)
Definition owed (o : op) (b : Buffer) : Prop :=
  match o with
  | OpHasWritten len => len <= WritableBytes b
  | OpAppend _ len | OpEnsureWriteable len => writePos_ b + len + 1 <= SIZE_MAX
  | _ => True
  end.

(** The buffers a program can hold: constructed, then operated on by calls
    that return. *)
Inductive reached (ok : op -> Buffer -> Prop) : Buffer -> Prop :=
| reached_ctor (c : Z) (b : Buffer) :
    INT_MIN <= c <= INT_MAX -> Buffer_ctor c = Ok b -> reached ok b
| reached_call (o : op) (b b' : Buffer) :
    reached ok b -> typed o -> ok o b -> exec o b = Ok b' -> reached ok b'.

#[local] Instance typed_dec (o : op) : Decision (typed o).
Proof. destruct o; simpl; apply _. Defined.

#[local] Instance owed_dec (o : op) (b : Buffer) : Decision (owed o b).
Proof. destruct o; simpl; apply _. Defined.

Fixpoint checked_run (ops : list op) (b : Buffer) : option (list Buffer) :=
  match ops with
  | [] => Some []
  | o :: ops' =>
      if bool_decide (typed o /\ owed o b) then
        match exec o b with
        | Ok b' => option_map (cons b') (checked_run ops' b')
        | _ => None
        end
      else None
  end.

(** ** Scenarios *)

Definition hello : list byte := [Byte.x68; Byte.x65; Byte.x6c; Byte.x6c; Byte.x6f].

Definition digits : list byte :=
  [Byte.x30; Byte.x31; Byte.x32; Byte.x33; Byte.x34;
   Byte.x35; Byte.x36; Byte.x37; Byte.x38; Byte.x39].

Definition env0 : Env := mkEnv 0 [].

(** A buffer of capacity 8 from which "01" has been consumed and which still
    holds "234". *)
Definition b_234 : Buffer :=
  mkBuffer (take 5 digits ++ replicate 3 x00) 2 5.

(** A buffer of capacity 8 from which "01" has been consumed and which still
    holds "2345". *)
Definition b_2345 : Buffer :=
  mkBuffer (take 6 digits ++ replicate 2 x00) 2 6.

(** A buffer of 100 unread bytes. *)
Definition b_100 : Buffer := mkBuffer (replicate 100 Byte.x61) 0 100.

(** A buffer of 100 bytes, all of them consumed. *)
Definition b_spent : Buffer := mkBuffer (replicate 100 Byte.x61) 100 100.

(** A buffer of capacity 10 filled with the ten digits. *)
Definition b_digits : Buffer := mkBuffer digits 0 10.

(** What a descriptor delivers in an oversized read into [b_234], which has
    3 writable bytes: 3 + 40000 bytes in the one call. *)
Definition big_read : list byte := replicate (Z.to_nat 40003) Byte.x7a.

(** A run through every kind of operation, each call checked against what
    the caller owes before it is made. *)
Definition a_run : list op :=
  [OpAppend (Some digits) 10; OpRetrieve 4; OpEnsureWriteable 3; OpHasWritten 2;
   OpRetrieveUntil 6; OpReadFd (ReadDelivers hello) env0 0;
   OpWriteFd (WriteAccepts 3) env0 0; OpRetrieveAllToStr;
   OpAppend (Some hello) 5; OpRetrieveAll; OpReadFd (ReadFails 4) env0 0].

(** The buffer after each call of [a_run] on a fresh buffer of capacity 10. *)
Definition a_run_states : list Buffer :=
  Eval vm_compute in
    default [] (checked_run a_run (mkBuffer (replicate 10 x00) 0 0)).

(** * Properties *)

(** ** size_t arithmetic *)

Lemma size_t_id (z : Z) : 0 <= z <= SIZE_MAX -> size_t z = z.
Proof. unfold size_t, SIZE_MAX. intros H. apply Z.mod_small. lia. Qed.

Lemma size_t_range (z : Z) : 0 <= size_t z <= SIZE_MAX.
Proof.
  unfold size_t, SIZE_MAX.
  pose proof (Z.mod_pos_bound z (2 ^ 64) ltac:(lia)). lia.
Qed.

Lemma size_t_wrap (z : Z) : SIZE_MAX < z <= 2 * SIZE_MAX -> size_t z = z - 2 ^ 64.
Proof.
  unfold size_t, SIZE_MAX. intros H.
  symmetry. apply (Z.mod_unique_pos z (2 ^ 64) 1); lia.
Qed.

Lemma size_t_neg (z : Z) : - 2 ^ 64 <= z < 0 -> size_t z = z + 2 ^ 64.
Proof.
  unfold size_t. intros H.
  symmetry. apply (Z.mod_unique_pos z (2 ^ 64) (-1)); lia.
Qed.

(** ** The copy loops *)

Lemma length_copy_into (src : list byte) : forall (d : nat) (mem : list byte),
  length (copy_into src d mem) = length mem.
Proof.
  induction src as [|x src IH]; intros d mem; simpl; [done|].
  by rewrite IH, length_insert.
Qed.

Lemma copy_into_spec (src : list byte) : forall (d : nat) (mem : list byte),
  (d + length src <= length mem)%nat ->
  copy_into src d mem = take d mem ++ src ++ drop (d + length src) mem.
Proof.
  induction src as [|x src IH]; intros d mem Hlen; simpl in *.
  - by rewrite Nat.add_0_r, take_drop.
  - rewrite IH by (rewrite length_insert; lia).
    rewrite (take_S_r _ d x) by (apply list_lookup_insert_eq; lia).
    rewrite take_insert_ge by lia.
    rewrite drop_insert_lt by lia.
    rewrite <- app_assoc. simpl.
    by replace (S (d + length src)) with (d + S (length src))%nat by lia.
Qed.

Lemma length_copy_within (n : nat) : forall (s d : nat) (mem : list byte),
  length (copy_within n s d mem) = length mem.
Proof.
  induction n as [|n IH]; intros s d mem; simpl; [done|].
  destruct (mem !! s); [|done].
  by rewrite IH, length_insert.
Qed.

(** The forward loop moves a block towards the front correctly even when the
    block and its destination overlap. *)
Lemma lookup_copy_within (n : nat) : forall (s d : nat) (mem : list byte) (i : nat),
  (d <= s)%nat -> (s + n <= length mem)%nat ->
  copy_within n s d mem !! i =
    if decide (d <= i < d + n)%nat then mem !! (i - d + s)%nat else mem !! i.
Proof.
  induction n as [|n IH]; intros s d mem i Hds Hlen; simpl.
  - case_decide; [lia|done].
  - destruct (lookup_lt_is_Some_2 mem s ltac:(lia)) as [x Hx].
    rewrite Hx, IH by (rewrite ?length_insert; lia).
    destruct (decide (i = d)) as [->|Hid].
    + rewrite decide_False by lia. rewrite decide_True by lia.
      rewrite list_lookup_insert_eq by lia.
      by replace (d - d + s)%nat with s by lia.
    + repeat case_decide; try lia.
      * rewrite list_lookup_insert_ne by lia. f_equal. lia.
      * by rewrite list_lookup_insert_ne by lia.
Qed.

Lemma take_copy_within (n s : nat) (mem : list byte) :
  (s + n <= length mem)%nat ->
  take n (copy_within n s 0 mem) = take n (drop s mem).
Proof.
  intros Hlen. apply list_eq. intros i.
  destruct (decide (i < n)%nat) as [Hi|Hi].
  - rewrite !lookup_take_lt by done.
    rewrite lookup_copy_within by lia.
    rewrite decide_True by lia. rewrite lookup_drop. f_equal. lia.
  - by rewrite !lookup_take_ge by lia.
Qed.

Lemma bzero_copy_into (n : nat) : forall (d : nat) (mem : list byte),
  bzero n d mem = copy_into (replicate n x00) d mem.
Proof. induction n as [|n IH]; intros d mem; simpl; [done|]. by rewrite IH. Qed.

Lemma bzero_all (mem : list byte) :
  bzero (length mem) 0 mem = replicate (length mem) x00.
Proof.
  rewrite bzero_copy_into, copy_into_spec by (rewrite length_replicate; lia).
  rewrite length_replicate. simpl. rewrite drop_all. apply app_nil_r.
Qed.

(** ** Reading a block back *)

Lemma read_after_resize (s : list byte) (r k n : nat) :
  (r + k <= length s)%nat -> (r + k <= n)%nat ->
  take k (drop r (resize n x00 s)) = take k (drop r s).
Proof.
  intros Hs Hn. apply list_eq. intros i.
  destruct (decide (i < k)%nat) as [Hi|Hi].
  - rewrite !lookup_take_lt, !lookup_drop by done.
    apply lookup_resize; lia.
  - by rewrite !lookup_take_ge by lia.
Qed.

Lemma read_after_write (s src : list byte) (r w : nat) :
  (r <= w)%nat -> (w + length src <= length s)%nat ->
  take (w - r + length src) (drop r (copy_into src w s)) =
  take (w - r) (drop r s) ++ src.
Proof.
  intros Hrw Hlen. rewrite copy_into_spec by done.
  rewrite drop_app_le by (rewrite length_take; lia).
  rewrite app_assoc, take_app_length'.
  - f_equal. rewrite take_drop_commute. f_equal. f_equal. lia.
  - rewrite length_app, length_drop, length_take. lia.
Qed.

(** ** Cursors of a well-formed buffer *)

Ltac unfold_consts := unfold SIZE_MAX, max_size, INT_MAX, INT_MIN, BUFF_SIZE in *.

Ltac size_t_norm :=
  repeat match goal with
  | |- context [size_t ?z] => rewrite (size_t_id z) by (unfold_consts; lia)
  | H : context [size_t ?z] |- _ => rewrite (size_t_id z) in H by (unfold_consts; lia)
  end.

Lemma wf_bounds (b : Buffer) :
  wf b ->
  0 <= readPos_ b <= writePos_ b /\
  writePos_ b <= vec_size (buffer_ b) /\
  vec_size (buffer_ b) <= max_size.
Proof. unfold wf, Inv. lia. Qed.

Lemma ReadableBytes_wf (b : Buffer) :
  wf b -> ReadableBytes b = writePos_ b - readPos_ b.
Proof.
  intros Hwf. apply wf_bounds in Hwf. unfold ReadableBytes. by size_t_norm.
Qed.

Lemma WritableBytes_wf (b : Buffer) :
  wf b -> WritableBytes b = vec_size (buffer_ b) - writePos_ b.
Proof.
  intros Hwf. apply wf_bounds in Hwf. unfold WritableBytes. by size_t_norm.
Qed.

Lemma length_readable (b : Buffer) :
  wf b -> Z.of_nat (length (readable b)) = ReadableBytes b.
Proof.
  intros Hwf. rewrite ReadableBytes_wf by done. apply wf_bounds in Hwf.
  unfold readable, mem_read, vec_size in *.
  rewrite length_take, length_drop. lia.
Qed.

(** The bytes a [std::string(Peek(), ReadableBytes())] or a
    [write(fd, Peek(), ReadableBytes())] reads are the payload. *)
Lemma mem_read_Peek (b : Buffer) :
  wf b -> mem_read (buffer_ b) (Peek b) (ReadableBytes b) = readable b.
Proof.
  intros Hwf. rewrite ReadableBytes_wf by done.
  unfold readable, Peek, BeginPtr_. by rewrite Z.add_0_l.
Qed.

(** ** Making space *)

Lemma MakeSpace_grow (len : Z) (b : Buffer) :
  wf b -> WritableBytes b + PrependableBytes b < len ->
  writePos_ b + len + 1 <= max_size ->
  MakeSpace_ len b = Ok (grown len b).
Proof.
  intros Hwf Hlt Hfit. pose proof (wf_bounds b Hwf) as Hb.
  rewrite WritableBytes_wf in Hlt by done. unfold PrependableBytes in Hlt.
  unfold MakeSpace_, vec_resize, grown.
  rewrite WritableBytes_wf by done. unfold PrependableBytes.
  size_t_norm.
  destruct (Z.ltb_spec (vec_size (buffer_ b) - writePos_ b + readPos_ b) len); [|lia].
  destruct (Z.ltb_spec max_size (writePos_ b + len + 1)); [lia|done].
Qed.

Lemma MakeSpace_throw (len : Z) (b : Buffer) :
  wf b -> WritableBytes b + PrependableBytes b < len ->
  max_size < writePos_ b + len + 1 <= SIZE_MAX ->
  MakeSpace_ len b = LengthError.
Proof.
  intros Hwf Hlt Hfit. pose proof (wf_bounds b Hwf) as Hb.
  rewrite WritableBytes_wf in Hlt by done. unfold PrependableBytes in Hlt.
  unfold MakeSpace_, vec_resize.
  rewrite WritableBytes_wf by done. unfold PrependableBytes.
  size_t_norm.
  destruct (Z.ltb_spec (vec_size (buffer_ b) - writePos_ b + readPos_ b) len); [|lia].
  destruct (Z.ltb_spec max_size (writePos_ b + len + 1)); [done|lia].
Qed.

Lemma MakeSpace_compact (len : Z) (b : Buffer) :
  wf b -> len <= WritableBytes b + PrependableBytes b ->
  MakeSpace_ len b = Ok (compacted b).
Proof.
  intros Hwf Hle. pose proof (wf_bounds b Hwf) as Hb.
  rewrite WritableBytes_wf in Hle by done. unfold PrependableBytes in Hle.
  unfold MakeSpace_, compacted.
  rewrite WritableBytes_wf by done. unfold PrependableBytes.
  size_t_norm.
  destruct (Z.ltb_spec (vec_size (buffer_ b) - writePos_ b + readPos_ b) len); [lia|].
  unfold ReadableBytes, set_writePos, set_readPos, set_buffer; simpl.
  size_t_norm. rewrite Z.sub_0_r, Z.eqb_refl. done.
Qed.

(** Past [SIZE_MAX] the sum [writePos_ + len + 1] wraps around: the store is
    resized to what is left of the sum, which is no more than [writePos_]. *)
Lemma MakeSpace_wraps (len : Z) (b : Buffer) :
  wf b -> len <= SIZE_MAX -> SIZE_MAX < writePos_ b + len + 1 ->
  MakeSpace_ len b =
    Ok (set_buffer (resize (Z.to_nat (writePos_ b + len + 1 - 2 ^ 64)) x00 (buffer_ b)) b) /\
  writePos_ b + len + 1 - 2 ^ 64 <= writePos_ b.
Proof.
  intros Hwf Hlen Hwrap. pose proof (wf_bounds b Hwf) as Hb.
  split; [|unfold_consts; lia].
  unfold MakeSpace_, vec_resize.
  rewrite WritableBytes_wf by done. unfold PrependableBytes.
  rewrite (size_t_id (_ + readPos_ b)) by (unfold_consts; lia).
  rewrite size_t_wrap by (unfold_consts; lia).
  destruct (Z.ltb_spec (vec_size (buffer_ b) - writePos_ b + readPos_ b) len);
    [|unfold_consts; lia].
  destruct (Z.ltb_spec max_size (writePos_ b + len + 1 - 2 ^ 64));
    [unfold_consts; lia|done].
Qed.

Lemma grown_keeps_payload (len : Z) (b : Buffer) :
  wf b -> WritableBytes b < len -> writePos_ b + len + 1 <= max_size ->
  keeps_payload len b (grown len b) /\
  vec_size (buffer_ (grown len b)) = writePos_ b + len + 1 /\
  readPos_ (grown len b) = readPos_ b /\ writePos_ (grown len b) = writePos_ b.
Proof.
  intros Hwf Hlt Hfit. pose proof (wf_bounds b Hwf) as Hb.
  rewrite WritableBytes_wf in Hlt by done.
  assert (Hsz : vec_size (buffer_ (grown len b)) = writePos_ b + len + 1).
  { unfold grown, vec_size; simpl. rewrite length_resize. lia. }
  assert (Hwf' : wf (grown len b)).
  { unfold wf, Inv. rewrite Hsz. unfold grown; simpl. lia. }
  assert (Hrd : readable (grown len b) = readable b).
  { unfold readable, mem_read, grown; simpl. unfold vec_size in *.
    apply read_after_resize; lia. }
  assert (Hw : len <= WritableBytes (grown len b)).
  { rewrite WritableBytes_wf, Hsz by done. unfold grown; simpl. lia. }
  unfold keeps_payload. split_and!; done.
Qed.

Lemma compacted_keeps_payload (len : Z) (b : Buffer) :
  wf b -> len <= WritableBytes b + PrependableBytes b ->
  keeps_payload len b (compacted b) /\
  vec_size (buffer_ (compacted b)) = vec_size (buffer_ b) /\
  readPos_ (compacted b) = 0 /\ writePos_ (compacted b) = ReadableBytes b.
Proof.
  intros Hwf Hle. pose proof (wf_bounds b Hwf) as Hb.
  rewrite WritableBytes_wf in Hle by done. unfold PrependableBytes in Hle.
  assert (Hsz : vec_size (buffer_ (compacted b)) = vec_size (buffer_ b)).
  { unfold compacted, vec_size; simpl. by rewrite length_copy_within. }
  assert (Hwf' : wf (compacted b)).
  { unfold wf, Inv. rewrite Hsz. unfold compacted; simpl. lia. }
  assert (Hrd : readable (compacted b) = readable b).
  { unfold readable, mem_read, compacted; simpl. unfold vec_size in *.
    rewrite Z.sub_0_r. apply take_copy_within. lia. }
  assert (Hrb : ReadableBytes (compacted b) = ReadableBytes b).
  { rewrite !ReadableBytes_wf by done. unfold compacted; simpl. lia. }
  assert (Hw : len <= WritableBytes (compacted b)).
  { rewrite WritableBytes_wf, Hsz by done. unfold compacted; simpl. lia. }
  assert (Hwp : writePos_ (compacted b) = ReadableBytes b).
  { by rewrite ReadableBytes_wf. }
  unfold keeps_payload. split_and!; done.
Qed.

(** ** Ensuring writable space *)

Lemma keeps_payload_refl (len : Z) (b : Buffer) :
  wf b -> len <= WritableBytes b -> keeps_payload len b b.
Proof. by unfold keeps_payload. Qed.

Lemma EnsureWriteable_enough (len : Z) (b : Buffer) :
  len <= WritableBytes b -> EnsureWriteable len b = Ok b.
Proof.
  intros Hle. unfold EnsureWriteable.
  destruct (Z.ltb_spec (WritableBytes b) len); [lia|]. simpl.
  destruct (Z.leb_spec len (WritableBytes b)); [done|lia].
Qed.

Lemma ensured_keeps_payload (len : Z) (b : Buffer) :
  wf b -> allocatable len b -> keeps_payload len b (ensured len b).
Proof.
  intros Hwf Hfit. unfold ensured.
  destruct (decide (len <= WritableBytes b)); [by apply keeps_payload_refl|].
  destruct (decide (WritableBytes b + PrependableBytes b < len)).
  - apply grown_keeps_payload; [done|lia|auto].
  - apply compacted_keeps_payload; [done|lia].
Qed.

Lemma EnsureWriteable_ok (len : Z) (b : Buffer) :
  wf b -> allocatable len b ->
  EnsureWriteable len b = Ok (ensured len b).
Proof.
  intros Hwf Hfit.
  pose proof (ensured_keeps_payload len b Hwf Hfit) as (_ & _ & _ & Hw).
  unfold ensured in *.
  destruct (decide (len <= WritableBytes b)); [by apply EnsureWriteable_enough|].
  unfold EnsureWriteable.
  destruct (Z.ltb_spec (WritableBytes b) len); [|lia].
  destruct (decide (WritableBytes b + PrependableBytes b < len)).
  - rewrite MakeSpace_grow by auto. simpl.
    destruct (Z.leb_spec len (WritableBytes (grown len b))); [done|lia].
  - rewrite MakeSpace_compact by (done || lia). simpl.
    destruct (Z.leb_spec len (WritableBytes (compacted b))); [done|lia].
Qed.

Lemma EnsureWriteable_throw (len : Z) (b : Buffer) :
  wf b -> WritableBytes b + PrependableBytes b < len ->
  max_size < writePos_ b + len + 1 <= SIZE_MAX ->
  EnsureWriteable len b = LengthError.
Proof.
  intros Hwf Hlt Hbig. unfold EnsureWriteable.
  destruct (Z.ltb_spec (WritableBytes b) len).
  - by rewrite MakeSpace_throw.
  - pose proof (wf_bounds b Hwf). unfold PrependableBytes in *. lia.
Qed.

(** Whatever the request, a call that returns has passed the two assertions
    of the source: the space is there, the count of readable bytes is the
    same, and a second call finds nothing to do. *)
Lemma EnsureWriteable_returns (len : Z) (b b' : Buffer) :
  EnsureWriteable len b = Ok b' ->
  len <= WritableBytes b' /\
  ReadableBytes b' = ReadableBytes b /\
  EnsureWriteable len b' = Ok b'.
Proof.
  unfold EnsureWriteable. intros Hrun.
  assert (Hms : (if WritableBytes b <? len then MakeSpace_ len b else Ok b) = Ok b'
                /\ len <= WritableBytes b').
  { destruct (if WritableBytes b <? len then MakeSpace_ len b else Ok b) as [b1| |];
      simpl in Hrun; try discriminate.
    destruct (Z.leb_spec len (WritableBytes b1)); simpl in Hrun; [|discriminate].
    by inversion Hrun; subst. }
  destruct Hms as [Hms Hw]. split; [done|]. split.
  - destruct (WritableBytes b <? len); [|by inversion Hms].
    unfold MakeSpace_ in Hms.
    destruct (size_t (WritableBytes b + PrependableBytes b) <? len).
    + destruct (vec_resize _ _); simpl in Hms; try discriminate.
      by inversion Hms.
    + match type of Hms with
      | bind (cassert (?x =? ?y)) _ = _ => destruct (Z.eqb_spec x y) as [Heq|]
      end; simpl in Hms; [|discriminate].
      injection Hms as <-. by symmetry.
  - destruct (Z.ltb_spec (WritableBytes b') len); [lia|]. simpl.
    destruct (Z.leb_spec len (WritableBytes b')); [done|lia].
Qed.

(** ** Writing into the tail *)

Lemma written_spec (src : list byte) (b : Buffer) :
  wf b -> vec_size src <= WritableBytes b ->
  wf (written src b) /\
  readable (written src b) = readable b ++ src /\
  ReadableBytes (written src b) = ReadableBytes b + vec_size src /\
  vec_size (buffer_ (written src b)) = vec_size (buffer_ b).
Proof.
  intros Hwf Hle. pose proof (wf_bounds b Hwf) as Hb.
  rewrite WritableBytes_wf in Hle by done.
  assert (Hsz : vec_size (buffer_ (written src b)) = vec_size (buffer_ b)).
  { unfold written, vec_size; simpl. by rewrite length_copy_into. }
  assert (Hwf' : wf (written src b)).
  { unfold wf, Inv. rewrite Hsz. unfold written, vec_size in *; simpl. lia. }
  split_and!; try done.
  - unfold readable, mem_read, written, vec_size in *; simpl.
    replace (Z.to_nat (writePos_ b + Z.of_nat (length src) - readPos_ b))
      with (Z.to_nat (writePos_ b) - Z.to_nat (readPos_ b) + length src)%nat by lia.
    rewrite read_after_write by lia.
    do 2 f_equal. lia.
  - rewrite !ReadableBytes_wf by done. unfold written; simpl. lia.
Qed.

Lemma Append_written (str : list byte) (len : Z) (b : Buffer) :
  wf b -> 0 <= len <= vec_size str -> allocatable len b ->
  Append (Some str) len b = Ok (written (take (Z.to_nat len) str) (ensured len b)).
Proof.
  intros Hwf Hlen Hfit.
  pose proof (ensured_keeps_payload len b Hwf Hfit) as (Hwf1 & _ & _ & Hw).
  pose proof (wf_bounds _ Hwf1) as Hb1.
  rewrite WritableBytes_wf in Hw by done.
  unfold Append. simpl.
  rewrite EnsureWriteable_ok by done. simpl.
  unfold HasWritten, written, set_writePos, set_buffer, BeginWrite, BeginPtr_; simpl.
  size_t_norm. rewrite Z.add_0_l.
  f_equal. f_equal. unfold vec_size in *. rewrite length_take. lia.
Qed.

Lemma Append_ok (str : list byte) (len : Z) (b : Buffer) :
  wf b -> 0 <= len <= vec_size str -> allocatable len b ->
  exists b',
    Append (Some str) len b = Ok b' /\ wf b' /\
    readable b' = readable b ++ take (Z.to_nat len) str /\
    ReadableBytes b' = ReadableBytes b + len.
Proof.
  intros Hwf Hlen Hfit.
  pose proof (ensured_keeps_payload len b Hwf Hfit) as (Hwf1 & Hrd & Hrb & Hw).
  assert (Hsrc : vec_size (take (Z.to_nat len) str) = len).
  { unfold vec_size in *. rewrite length_take. lia. }
  destruct (written_spec (take (Z.to_nat len) str) (ensured len b))
    as (Hwf' & Hrd' & Hrb' & _); [done|lia|].
  eexists. split; [by apply Append_written|].
  split_and!; [done|by rewrite Hrd', Hrd|]. rewrite Hrb', Hrb, Hsrc. done.
Qed.

Lemma Append_throw (str : list byte) (len : Z) (b : Buffer) :
  wf b -> WritableBytes b + PrependableBytes b < len ->
  max_size < writePos_ b + len + 1 <= SIZE_MAX ->
  Append (Some str) len b = LengthError.
Proof.
  intros Hwf Hlt Hbig. unfold Append. simpl.
  by rewrite EnsureWriteable_throw.
Qed.

(** * The claims *)

(** ** Construction *)

(** C10: a buffer constructed with initial capacity [c] has both cursors at 0,
    hence no readable and no prependable byte, and all [c] bytes of its store
    writable: a request for [c] bytes is met without touching the buffer. *)
Theorem Buffer_ctor_fresh (c : Z) :
  0 <= c <= INT_MAX ->
  exists b,
    Buffer_ctor c = Ok b /\
    readPos_ b = 0 /\ writePos_ b = 0 /\
    ReadableBytes b = 0 /\ PrependableBytes b = 0 /\ WritableBytes b = c /\
    readable b = [] /\
    vec_size (buffer_ b) = c /\ EnsureWriteable c b = Ok b.
Proof.
  intros Hc. unfold Buffer_ctor, vec_new. size_t_norm.
  destruct (Z.ltb_spec max_size c); [unfold_consts; lia|]. simpl.
  eexists. split; [done|].
  assert (Hsz : vec_size (replicate (Z.to_nat c) x00) = c).
  { unfold vec_size. rewrite length_replicate. lia. }
  assert (Hw : WritableBytes (mkBuffer (replicate (Z.to_nat c) x00) 0 0) = c).
  { unfold WritableBytes; simpl. rewrite Hsz, Z.sub_0_r. size_t_norm. done. }
  split_and!; try done.
  apply EnsureWriteable_enough. lia.
Qed.

Lemma Buffer_ctor_fresh_1024 :
  exists b,
    Buffer_ctor 1024 = Ok b /\
    readPos_ b = 0 /\ writePos_ b = 0 /\
    ReadableBytes b = 0 /\ PrependableBytes b = 0 /\ WritableBytes b = 1024 /\
    readable b = [] /\
    vec_size (buffer_ b) = 1024 /\ EnsureWriteable 1024 b = Ok b.
Proof. apply (Buffer_ctor_fresh 1024). unfold INT_MAX. lia. Defined.

(** ** Full reset *)

(** C8: [RetrieveAllToStr] returns exactly the readable bytes and leaves a
    buffer with both cursors at 0 (nothing readable, nothing prependable)
    whose store has its old size and holds only zero bytes. *)
Theorem RetrieveAllToStr_full_reset (b : Buffer) :
  wf b ->
  fst (RetrieveAllToStr b) = readable b /\
  ReadableBytes (snd (RetrieveAllToStr b)) = 0 /\
  PrependableBytes (snd (RetrieveAllToStr b)) = 0 /\
  readPos_ (snd (RetrieveAllToStr b)) = 0 /\
  writePos_ (snd (RetrieveAllToStr b)) = 0 /\
  buffer_ (snd (RetrieveAllToStr b)) = replicate (length (buffer_ b)) x00.
Proof.
  intros Hwf. unfold RetrieveAllToStr, RetrieveAll; simpl.
  split_and!; try done.
  - by apply mem_read_Peek.
  - apply bzero_all.
Qed.

Lemma b_234_wf : wf b_234.
Proof. unfold wf, Inv, b_234, vec_size, max_size; simpl. lia. Qed.

Lemma RetrieveAllToStr_full_reset_234 :
  fst (RetrieveAllToStr b_234) = readable b_234 /\
  ReadableBytes (snd (RetrieveAllToStr b_234)) = 0 /\
  PrependableBytes (snd (RetrieveAllToStr b_234)) = 0 /\
  readPos_ (snd (RetrieveAllToStr b_234)) = 0 /\
  writePos_ (snd (RetrieveAllToStr b_234)) = 0 /\
  buffer_ (snd (RetrieveAllToStr b_234)) = replicate (length (buffer_ b_234)) x00.
Proof. apply (RetrieveAllToStr_full_reset b_234). exact b_234_wf. Defined.

(** ** A failed read *)

(** C6: when the [readv] issued by [ReadFd] returns a negative value, [ReadFd]
    returns that value, the error slot holds the [errno] the call set, and
    the buffer (store and both cursors) is what it was. *)
Theorem ReadFd_failure_keeps_buffer
    (fd : read_source) (env : Env) (saveErrno : Z) (b : Buffer) :
  let r := readv fd (errno env) (buffer_ b) (BeginPtr_ b + writePos_ b)
             (WritableBytes b) (resize (Z.to_nat BUFF_SIZE) x00 (stack env)) BUFF_SIZE in
  rv_ret r < 0 ->
  exists t,
    ReadFd fd env saveErrno b = Ok t /\
    t_ret t = rv_ret r /\ t_ret t < 0 /\
    t_saveErrno t = rv_errno r /\
    (forall e, fd = ReadFails e -> t_saveErrno t = e) /\
    t_buf t = b /\
    t_calls t = [SysReadv (WritableBytes b) BUFF_SIZE].
Proof.
  intros r Hneg. unfold ReadFd. fold r.
  destruct (Z.ltb_spec (rv_ret r) 0); [|lia].
  eexists. split; [done|]. simpl.
  destruct fd as [e|avail]; simpl in *.
  - split_and!; try done.
    + by intros ? [= ->].
    + by destruct b.
  - lia.
Qed.

Lemma ReadFd_failure_keeps_buffer_234 :
  exists t,
    ReadFd (ReadFails 11) (mkEnv 0 []) 0 b_234 = Ok t /\
    t_ret t = -1 /\ t_ret t < 0 /\
    t_saveErrno t = 11 /\
    (forall e, ReadFails 11 = ReadFails e -> t_saveErrno t = e) /\
    t_buf t = b_234 /\
    t_calls t = [SysReadv (WritableBytes b_234) BUFF_SIZE].
Proof.
  apply (ReadFd_failure_keeps_buffer (ReadFails 11) (mkEnv 0 []) 0 b_234).
  simpl. lia.
Defined.

(** ** Writing to a descriptor *)

Section Writing.

(** The process environment plays no part in a write beyond [errno]. *)
Variable env : Env.

Lemma WriteFd_fails (e : Z) (saveErrno : Z) (b : Buffer) :
  WriteFd (WriteFails e) env saveErrno b =
  mkTransfer (-1) e b [SysWrite (mem_read (buffer_ b) (Peek b) (ReadableBytes b))].
Proof. done. Qed.

Lemma WriteFd_accepts (room : nat) (saveErrno : Z) (b : Buffer) :
  wf b ->
  let n := Z.min (Z.of_nat room) (ReadableBytes b) in
  WriteFd (WriteAccepts room) env saveErrno b =
    mkTransfer n saveErrno (set_readPos (readPos_ b + n) b) [SysWrite (readable b)] /\
  0 <= n <= ReadableBytes b /\
  wf (set_readPos (readPos_ b + n) b) /\
  ReadableBytes (set_readPos (readPos_ b + n) b) = ReadableBytes b - n /\
  readable (set_readPos (readPos_ b + n) b) = drop (Z.to_nat n) (readable b).
Proof.
  intros Hwf n. pose proof (wf_bounds b Hwf) as Hb.
  pose proof (length_readable b Hwf) as Hlen.
  pose proof (ReadableBytes_wf b Hwf) as Hrb.
  assert (Hn : 0 <= n <= ReadableBytes b) by lia.
  assert (Hwf' : wf (set_readPos (readPos_ b + n) b)).
  { unfold wf, Inv, set_readPos; simpl. lia. }
  assert (Hcall : WriteFd (WriteAccepts room) env saveErrno b =
    mkTransfer n saveErrno (set_readPos (readPos_ b + n) b) [SysWrite (readable b)]).
  { unfold WriteFd, write. rewrite mem_read_Peek by done.
    replace (Z.of_nat (Nat.min room (length (readable b)))) with n by lia.
    destruct (Z.ltb_spec n 0); [lia|]. by size_t_norm. }
  assert (Hrb' : ReadableBytes (set_readPos (readPos_ b + n) b) = ReadableBytes b - n).
  { rewrite (ReadableBytes_wf _ Hwf'). unfold set_readPos; simpl. lia. }
  assert (Hrd : readable (set_readPos (readPos_ b + n) b) = drop (Z.to_nat n) (readable b)).
  { unfold readable, mem_read, set_readPos; simpl.
    replace (Z.to_nat (writePos_ b - readPos_ b))
      with (Z.to_nat n + Z.to_nat (writePos_ b - (readPos_ b + n)))%nat by lia.
    rewrite <- take_drop_commute, drop_drop. do 2 f_equal. lia. }
  done.
Qed.

Lemma WriteFd_repeat_retires (fds : list write_sink) :
  forall (saveErrno : Z) (b : Buffer),
  wf b ->
  wf (snd (WriteFd_repeat fds env saveErrno b)) /\
  ReadableBytes (snd (WriteFd_repeat fds env saveErrno b)) =
    ReadableBytes b - retired (fst (WriteFd_repeat fds env saveErrno b)).
Proof.
  induction fds as [|fd fds IH]; intros saveErrno b Hwf; simpl.
  - split; [done|]. unfold retired; simpl. lia.
  - destruct fd as [e|room].
    + rewrite WriteFd_fails; simpl.
      specialize (IH e b Hwf).
      destruct (WriteFd_repeat fds env e b) as [rets b']; simpl in *.
      unfold retired in *; simpl. split; [tauto|]. lia.
    + destruct (WriteFd_accepts room saveErrno b Hwf) as (-> & Hn & Hwf' & Hrb & _).
      simpl.
      specialize (IH saveErrno _ Hwf').
      destruct (WriteFd_repeat fds env saveErrno _) as [rets b']; simpl in *.
      unfold retired in *; simpl. split; [tauto|]. lia.
Qed.

(** C5: [WriteFd] issues one [write] of the readable region.  A failure
    returns the negative value with the error slot set and the buffer as it
    was; a count [n >= 0], possibly short, advances [readPos] by exactly [n]
    and leaves the rest readable; over repeated calls the readable count
    falls by the counts returned, and is 0 once they add up to the original
    readable length. *)
Theorem WriteFd_retires_what_was_written (b : Buffer) :
  wf b ->
  (forall (fd : write_sink) (saveErrno : Z),
     let t := WriteFd fd env saveErrno b in
     t_calls t = [SysWrite (readable b)] /\
     match fd with
     | WriteFails e =>
         t_ret t < 0 /\ t_saveErrno t = e /\ t_buf t = b
     | WriteAccepts room =>
         t_ret t = Z.min (Z.of_nat room) (ReadableBytes b) /\
         0 <= t_ret t <= ReadableBytes b /\
         t_saveErrno t = saveErrno /\
         readPos_ (t_buf t) = readPos_ b + t_ret t /\
         writePos_ (t_buf t) = writePos_ b /\
         buffer_ (t_buf t) = buffer_ b /\
         ReadableBytes (t_buf t) = ReadableBytes b - t_ret t /\
         readable (t_buf t) = drop (Z.to_nat (t_ret t)) (readable b)
     end) /\
  (forall (fds : list write_sink) (saveErrno : Z),
     let '(rets, b') := WriteFd_repeat fds env saveErrno b in
     ReadableBytes b' = ReadableBytes b - retired rets /\
     (retired rets = ReadableBytes b -> ReadableBytes b' = 0)).
Proof.
  intros Hwf. split.
  - intros fd saveErrno. destruct fd as [e|room].
    + rewrite WriteFd_fails; simpl. rewrite mem_read_Peek by done.
      split_and!; (done || lia).
    + intros t. subst t.
      destruct (WriteFd_accepts room saveErrno b Hwf) as (-> & Hn & Hwf' & Hrb & Hrd).
      simpl. split_and!; (done || lia).
  - intros fds saveErrno.
    pose proof (WriteFd_repeat_retires fds saveErrno b Hwf) as [_ H].
    destruct (WriteFd_repeat fds env saveErrno b) as [rets b']; simpl in *.
    split; [done|]. lia.
Qed.

End Writing.

Lemma b_100_wf : wf b_100.
Proof. unfold wf, Inv, b_100, vec_size, max_size; simpl. lia. Qed.

Example WriteFd_short_write_run :
  WriteFd_repeat [WriteAccepts 5; WriteAccepts 95] env0 0 b_100 =
    ([5; 95], mkBuffer (replicate 100 Byte.x61) 100 100) /\
  readPos_ (t_buf (WriteFd (WriteAccepts 5) env0 0 b_100)) = 5.
Proof. by vm_compute. Qed.

Lemma WriteFd_short_write_100 :
  wf b_100 /\
  (let '(rets, b') := WriteFd_repeat [WriteAccepts 5; WriteAccepts 95] env0 0 b_100 in
   ReadableBytes b' = ReadableBytes b_100 - retired rets /\
   (retired rets = ReadableBytes b_100 -> ReadableBytes b' = 0)).
Proof.
  split; [exact b_100_wf|].
  exact (proj2 (WriteFd_retires_what_was_written env0 b_100 b_100_wf)
           [WriteAccepts 5; WriteAccepts 95] 0).
Defined.

(** ** Append, then retrieve *)

Lemma readable_nil (b : Buffer) : wf b -> ReadableBytes b = 0 -> readable b = [].
Proof.
  intros Hwf H0. apply length_zero_iff_nil.
  pose proof (length_readable b Hwf). lia.
Qed.

Lemma Retrieve_ok (len : Z) (b : Buffer) :
  wf b -> 0 <= len <= ReadableBytes b ->
  Retrieve len b = Ok (set_readPos (readPos_ b + len) b) /\
  wf (set_readPos (readPos_ b + len) b) /\
  ReadableBytes (set_readPos (readPos_ b + len) b) = ReadableBytes b - len.
Proof.
  intros Hwf Hlen. pose proof (wf_bounds b Hwf) as Hb.
  pose proof (ReadableBytes_wf b Hwf) as Hrb.
  assert (Hwf' : wf (set_readPos (readPos_ b + len) b)).
  { unfold wf, Inv, set_readPos; simpl. lia. }
  split_and!; [|done|].
  - unfold Retrieve. destruct (Z.leb_spec len (ReadableBytes b)); [|lia].
    simpl. by size_t_norm.
  - rewrite (ReadableBytes_wf _ Hwf'). unfold set_readPos; simpl. lia.
Qed.

(** The claim as C7 words it, for every buffer state, fails on a buffer that
    still holds unread bytes: after "hello" is appended to a buffer holding
    "234", the five bytes at the read cursor are "234he". *)
Lemma roundtrip_fails_on_unread_bytes :
  ~ (forall (B : list byte) (b b1 : Buffer),
       wf b ->
       Append (Some B) (vec_size B) b = Ok b1 ->
       mem_read (buffer_ b1) (Peek b1) (vec_size B) = B).
Proof.
  intros H.
  specialize (H hello b_234 _ b_234_wf eq_refl).
  vm_compute in H. discriminate H.
Qed.

(** C7, amended: on a buffer with no unread byte, appending [B] and then
    reading [len(B)] bytes at the read cursor yields exactly [B], and
    retrieving them empties the buffer; and the scenario of the spec on a
    buffer of capacity 1024. *)
Theorem Append_Retrieve_roundtrip (B : list byte) (b : Buffer) :
  wf b -> ReadableBytes b = 0 -> allocatable (vec_size B) b ->
  (exists b1 b2,
     Append (Some B) (vec_size B) b = Ok b1 /\
     ReadableBytes b1 = vec_size B /\
     mem_read (buffer_ b1) (Peek b1) (vec_size B) = B /\
     Retrieve (vec_size B) b1 = Ok b2 /\
     ReadableBytes b2 = 0) /\
  (exists b0 b1 b2,
     Buffer_ctor 1024 = Ok b0 /\
     Append (Some hello) 5 b0 = Ok b1 /\
     ReadableBytes b1 = 5 /\
     mem_read (buffer_ b1) (Peek b1) 5 = hello /\
     Retrieve 5 b1 = Ok b2 /\
     ReadableBytes b2 = 0 /\ PrependableBytes b2 = 5).
Proof.
  intros Hwf H0 Hfit. split.
  - destruct (Append_ok B (vec_size B) b) as (b1 & Happ & Hwf1 & Hrd & Hrb);
      [done|unfold vec_size; lia|done|].
    rewrite H0, Z.add_0_l in Hrb.
    destruct (Retrieve_ok (vec_size B) b1) as (Hret & _ & Hrb2);
      [done|unfold vec_size in *; lia|].
    eexists _, _. split_and!; [done|done| |done|lia].
    rewrite <- Hrb, mem_read_Peek, Hrd by done.
    rewrite readable_nil by done. simpl.
    apply take_ge. unfold vec_size. lia.
  - exists (mkBuffer (replicate 1024 x00) 0 0),
      (mkBuffer (hello ++ replicate 1019 x00) 0 5),
      (mkBuffer (hello ++ replicate 1019 x00) 5 5).
    split_and!; vm_compute; reflexivity.
Qed.

Lemma b_spent_wf : wf b_spent.
Proof. unfold wf, Inv, b_spent, vec_size, max_size; simpl. lia. Qed.

Lemma b_spent_allocatable : allocatable (vec_size digits) b_spent.
Proof. intros H. vm_compute in H. discriminate H. Qed.

Lemma Append_Retrieve_roundtrip_digits :
  (wf b_spent /\ ReadableBytes b_spent = 0 /\ allocatable (vec_size digits) b_spent) /\
  (exists b1 b2,
     Append (Some digits) (vec_size digits) b_spent = Ok b1 /\
     ReadableBytes b1 = vec_size digits /\
     mem_read (buffer_ b1) (Peek b1) (vec_size digits) = digits /\
     Retrieve (vec_size digits) b1 = Ok b2 /\
     ReadableBytes b2 = 0).
Proof.
  split; [split_and!; [exact b_spent_wf|reflexivity|exact b_spent_allocatable]|].
  exact (proj1 (Append_Retrieve_roundtrip digits b_spent
                  b_spent_wf eq_refl b_spent_allocatable)).
Defined.

(** ** Ensuring twice *)

(** C9: whatever [n], a call of [EnsureWriteable(n)] that returns leaves at
    least [n] writable bytes and the count of readable bytes unchanged, and a
    second call returns the very same buffer; the call does return, with the
    payload intact, whenever the request is allocatable; and a call on a
    buffer that already has the space changes nothing. *)
Theorem EnsureWriteable_twice (n : Z) (b : Buffer) :
  wf b ->
  (forall b1,
     EnsureWriteable n b = Ok b1 ->
     n <= WritableBytes b1 /\
     ReadableBytes b1 = ReadableBytes b /\
     EnsureWriteable n b1 = Ok b1 /\
     (do b' <- EnsureWriteable n b; EnsureWriteable n b') = Ok b1) /\
  (allocatable n b ->
     exists b1, EnsureWriteable n b = Ok b1 /\ wf b1 /\ readable b1 = readable b) /\
  (n <= WritableBytes b -> EnsureWriteable n b = Ok b).
Proof.
  intros Hwf. split_and!.
  - intros b1 Hrun.
    destruct (EnsureWriteable_returns n b b1 Hrun) as (Hw & Hrb & Hagain).
    split_and!; try done. by rewrite Hrun.
  - intros Hfit. exists (ensured n b).
    destruct (ensured_keeps_payload n b Hwf Hfit) as (Hwf1 & Hrd & _ & _).
    split_and!; try done. by apply EnsureWriteable_ok.
  - apply EnsureWriteable_enough.
Qed.

Lemma EnsureWriteable_twice_234 :
  wf b_234 /\
  ((forall b1,
     EnsureWriteable 4 b_234 = Ok b1 ->
     4 <= WritableBytes b1 /\
     ReadableBytes b1 = ReadableBytes b_234 /\
     EnsureWriteable 4 b1 = Ok b1 /\
     (do b' <- EnsureWriteable 4 b_234; EnsureWriteable 4 b') = Ok b1) /\
  (allocatable 4 b_234 ->
     exists b1, EnsureWriteable 4 b_234 = Ok b1 /\ wf b1 /\ readable b1 = readable b_234) /\
  (4 <= WritableBytes b_234 -> EnsureWriteable 4 b_234 = Ok b_234)).
Proof. split; [exact b_234_wf|]. exact (EnsureWriteable_twice 4 b_234 b_234_wf). Defined.

Example EnsureWriteable_twice_run :
  EnsureWriteable 4 b_234 = Ok (mkBuffer (take 3 (drop 2 digits) ++ take 2 (drop 3 digits) ++ replicate 3 x00) 0 3) /\
  (do b' <- EnsureWriteable 4 b_234; EnsureWriteable 4 b') = EnsureWriteable 4 b_234.
Proof. by vm_compute. Qed.

(** ** The space-making policy *)

(** On every allocatable request the policy does what [EnsureWriteable]
    asserts of it: it grows the store to [writePos + len + 1] bytes when
    reclaiming the consumed front would not do, compacts otherwise, and in
    both cases leaves [len] writable bytes and the payload as it was. *)
Lemma MakeSpace_policy (len : Z) (b : Buffer) :
  wf b -> WritableBytes b < len -> allocatable len b ->
  exists b',
    MakeSpace_ len b = Ok b' /\ keeps_payload len b b' /\
    if decide (WritableBytes b + PrependableBytes b < len)
    then vec_size (buffer_ b') = writePos_ b + len + 1 /\
         readPos_ b' = readPos_ b /\ writePos_ b' = writePos_ b
    else vec_size (buffer_ b') = vec_size (buffer_ b) /\
         readPos_ b' = 0 /\ writePos_ b' = ReadableBytes b.
Proof.
  intros Hwf Hlt Hfit. case_decide as Hgrow.
  - exists (grown len b). split; [by apply MakeSpace_grow; auto|].
    by apply grown_keeps_payload; auto.
  - exists (compacted b). split; [by apply MakeSpace_compact; [|lia]|].
    apply compacted_keeps_payload; [done|lia].
Qed.

(** C3, at the request [SIZE_MAX] on a fresh buffer of capacity 1024: the sum
    [writePos_ + len + 1] wraps around to 0, the store is resized to no bytes
    at all, nothing is writable, and the assertion of [EnsureWriteable]
    fails. *)
Theorem MakeSpace_SIZE_MAX_empties_store :
  let b := mkBuffer (replicate 1024 x00) 0 0 in
  Buffer_ctor 1024 = Ok b /\
  WritableBytes b < SIZE_MAX /\
  WritableBytes b + PrependableBytes b < SIZE_MAX /\
  MakeSpace_ SIZE_MAX b = Ok (mkBuffer [] 0 0) /\
  vec_size (buffer_ (mkBuffer [] 0 0)) <> writePos_ b + SIZE_MAX + 1 /\
  WritableBytes (mkBuffer [] 0 0) < SIZE_MAX /\
  EnsureWriteable SIZE_MAX b = AssertFail.
Proof. simpl. split_and!; vm_compute; (reflexivity || discriminate). Qed.




(** ** Reading from a descriptor *)

Lemma written_cursors (src : list byte) (b : Buffer) :
  readPos_ (written src b) = readPos_ b /\
  writePos_ (written src b) = writePos_ b + vec_size src.
Proof. done. Qed.

(** [ReadFd] on a descriptor that delivers: the bytes transferred are stored
    at the write cursor; what does not fit is appended from the scratch
    array. *)
Lemma ReadFd_delivers (avail : list byte) (env : Env) (saveErrno : Z) (b : Buffer) :
  wf b ->
  let n := Z.min (vec_size avail) (WritableBytes b + BUFF_SIZE) in
  let d := take (Z.to_nat n) avail in
  let w := Z.to_nat (WritableBytes b) in
  let scratch := copy_into (drop w d) 0 (resize (Z.to_nat BUFF_SIZE) x00 (stack env)) in
  let calls := [SysReadv (WritableBytes b) BUFF_SIZE] in
  vec_size d = n /\
  take (Z.to_nat (n - WritableBytes b)) scratch = drop w d /\
  ReadFd (ReadDelivers avail) env saveErrno b =
    if decide (n <= WritableBytes b)
    then Ok (mkTransfer n saveErrno (written d b) calls)
    else do b2 <- Append (Some scratch) (n - WritableBytes b) (written (take w d) b);
         Ok (mkTransfer n saveErrno b2 calls).
Proof.
  intros Hwf n d w scratch calls. pose proof (wf_bounds b Hwf) as Hb.
  pose proof (WritableBytes_wf b Hwf) as HW.
  assert (Hn : n = Z.min (vec_size avail) (WritableBytes b + BUFF_SIZE)) by done.
  assert (Hw : w = Z.to_nat (WritableBytes b)) by done.
  assert (Hd : vec_size d = n).
  { unfold d, vec_size, BUFF_SIZE in *. rewrite length_take. lia. }
  assert (Hscratch : take (Z.to_nat (n - WritableBytes b)) scratch = drop w d).
  { unfold scratch. rewrite copy_into_spec.
    - simpl. rewrite take_app_length'; [done|].
      rewrite length_drop. unfold vec_size in Hd. lia.
    - rewrite length_resize, length_drop. unfold vec_size, BUFF_SIZE in *. lia. }
  assert (Htake : take (Z.to_nat (WritableBytes b) + Z.to_nat BUFF_SIZE) avail = d).
  { unfold d. destruct (decide (vec_size avail <= WritableBytes b + BUFF_SIZE)).
    - rewrite !take_ge by (unfold vec_size, BUFF_SIZE in *; lia). done.
    - f_equal. unfold vec_size, BUFF_SIZE in *. lia. }
  split_and!; [done|done|].
  unfold ReadFd, readv; simpl.
  rewrite Htake. fold w. fold scratch. fold (vec_size d). rewrite Hd.
  destruct (Z.ltb_spec n 0); [unfold vec_size, BUFF_SIZE in *; lia|].
  rewrite (size_t_id n) by (unfold_consts; lia).
  unfold BeginPtr_. rewrite Z.add_0_l.
  case_decide as Hfits.
  - destruct (Z.leb_spec n (WritableBytes b)); [|lia].
    rewrite take_ge by (unfold vec_size in *; lia).
    unfold written, set_writePos, set_buffer; simpl.
    rewrite Hd. by size_t_norm.
  - destruct (Z.leb_spec n (WritableBytes b)); [lia|].
    rewrite (size_t_id (n - WritableBytes b)) by (unfold_consts; lia).
    assert (Hb1 : set_writePos
               (vec_size (copy_into (take w d) (Z.to_nat (writePos_ b)) (buffer_ b)))
               (set_buffer (copy_into (take w d) (Z.to_nat (writePos_ b)) (buffer_ b)) b)
             = written (take w d) b).
    { unfold written, set_writePos, set_buffer, vec_size in *; simpl.
      rewrite length_copy_into, length_take. f_equal. lia. }
    by rewrite Hb1.
Qed.

Lemma ReadFd_delivers_cases (avail : list byte) (env : Env) (saveErrno : Z) (b : Buffer) :
  wf b ->
  let n := Z.min (vec_size avail) (WritableBytes b + BUFF_SIZE) in
  let d := take (Z.to_nat n) avail in
  match ReadFd (ReadDelivers avail) env saveErrno b with
  | Ok t => no_loss b n d t
  | LengthError => max_size < vec_size (buffer_ b) + BUFF_SIZE + 1
  | AssertFail => False
  end.
Proof.
  intros Hwf n d. pose proof (wf_bounds b Hwf) as Hb.
  pose proof (WritableBytes_wf b Hwf) as HW.
  destruct (ReadFd_delivers avail env saveErrno b Hwf) as (Hd & Hscratch & Hrun).
  fold n in Hd, Hscratch, Hrun. fold d in Hd, Hscratch, Hrun.
  assert (Hn : n <= WritableBytes b + BUFF_SIZE) by (unfold n; lia).
  rewrite Hrun. clear Hrun. case_decide as Hfits.
  - destruct (written_spec d b Hwf) as (Hwf' & Hrd & Hrb & Hsz); [lia|].
    unfold no_loss; simpl.
    split_and!; try done; try lia.
    intros _. unfold written; simpl. split_and!; try done. lia.
  - set (w := Z.to_nat (WritableBytes b)) in *.
    set (scratch := copy_into (drop w d) 0 _) in *.
    assert (Hw : vec_size (take w d) = WritableBytes b).
    { unfold vec_size in *. rewrite length_take. lia. }
    destruct (written_spec (take w d) b Hwf) as (Hwf1 & Hrd1 & Hrb1 & Hsz1); [lia|].
    destruct (written_cursors (take w d) b) as [Hr1 Hw1].
    destruct (decide (allocatable (n - WritableBytes b) (written (take w d) b)))
      as [Hfit|Hbig].
    + destruct (Append_ok scratch (n - WritableBytes b) (written (take w d) b))
        as (b2 & Happ & Hwf2 & Hrd2 & Hrb2); [done| |done|].
      { unfold scratch, vec_size. rewrite length_copy_into, length_resize.
        unfold BUFF_SIZE in *. lia. }
      rewrite Happ. unfold no_loss; simpl.
      split_and!; try done; try lia.
      * rewrite Hrd2, Hrd1, Hscratch, <- app_assoc, take_drop. done.
      * intros _. exists (written (take w d) b), scratch.
        split_and!; try done. rewrite Hw1, Hw. lia.
    + unfold allocatable in Hbig. rewrite Hw1, Hw in Hbig.
      rewrite Append_throw; [simpl; lia|done|lia|].
      rewrite Hw1, Hw. unfold_consts. lia.
Qed.

(** C1: a read that delivers [n] bytes loses none of them.  If they fit in
    the writable tail, [writePos] advances by [n] and the store is not
    resized; otherwise the tail is filled up to the end of the store and the
    rest is appended from the scratch array.  Either way the readable count
    grows by exactly [n] and the payload is the old payload followed by the
    bytes delivered.  The call returns unless the vector refuses to grow,
    which takes a store within 64 KiB of the largest vector. *)
Theorem ReadFd_no_loss (avail : list byte) (env : Env) (saveErrno : Z) (b : Buffer) :
  wf b ->
  let n := Z.min (vec_size avail) (WritableBytes b + BUFF_SIZE) in
  let d := take (Z.to_nat n) avail in
  (vec_size (buffer_ b) + BUFF_SIZE + 1 <= max_size ->
   exists t, ReadFd (ReadDelivers avail) env saveErrno b = Ok t) /\
  (forall t,
     ReadFd (ReadDelivers avail) env saveErrno b = Ok t ->
     t_ret t = n /\
     t_calls t = [SysReadv (WritableBytes b) BUFF_SIZE] /\
     wf (t_buf t) /\
     ReadableBytes (t_buf t) = ReadableBytes b + n /\
     readable (t_buf t) = readable b ++ d /\
     (n <= WritableBytes b ->
        writePos_ (t_buf t) = writePos_ b + n /\
        readPos_ (t_buf t) = readPos_ b /\
        vec_size (buffer_ (t_buf t)) = vec_size (buffer_ b)) /\
     (WritableBytes b < n ->
        exists b1 scratch,
          writePos_ b1 = vec_size (buffer_ b) /\
          vec_size (buffer_ b1) = vec_size (buffer_ b) /\
          readable b1 = readable b ++ take (Z.to_nat (WritableBytes b)) d /\
          take (Z.to_nat (n - WritableBytes b)) scratch =
            drop (Z.to_nat (WritableBytes b)) d /\
          Append (Some scratch) (n - WritableBytes b) b1 = Ok (t_buf t))).
Proof.
  intros Hwf n d.
  pose proof (ReadFd_delivers_cases avail env saveErrno b Hwf) as Hcases.
  fold n in Hcases. fold d in Hcases.
  destruct (ReadFd (ReadDelivers avail) env saveErrno b) as [t| |];
    simpl in Hcases; [|done|].
  - split; [by exists t|]. by intros t' [= <-].
  - split; [intros Hroom; exfalso; lia|done].
Qed.

Lemma b_234_room : vec_size (buffer_ b_234) + BUFF_SIZE + 1 <= max_size.
Proof. unfold b_234, vec_size, BUFF_SIZE, max_size; simpl. lia. Qed.

Lemma ReadFd_no_loss_40000 :
  (wf b_234 /\ vec_size (buffer_ b_234) + BUFF_SIZE + 1 <= max_size) /\
  exists t,
    ReadFd (ReadDelivers big_read) env0 0 b_234 = Ok t /\
    t_ret t = Z.min (vec_size big_read) (WritableBytes b_234 + BUFF_SIZE) /\
    ReadableBytes (t_buf t) =
      ReadableBytes b_234 + Z.min (vec_size big_read) (WritableBytes b_234 + BUFF_SIZE) /\
    readable (t_buf t) =
      readable b_234 ++
      take (Z.to_nat (Z.min (vec_size big_read) (WritableBytes b_234 + BUFF_SIZE))) big_read.
Proof.
  split; [split; [exact b_234_wf|exact b_234_room]|].
  destruct (ReadFd_no_loss big_read env0 0 b_234 b_234_wf) as [Hret Hpost].
  destruct (Hret b_234_room) as [t Hrun].
  destruct (Hpost t Hrun) as (Hn & _ & _ & Hrb & Hrd & _).
  exists t. split_and!; assumption.
Defined.

Example ReadFd_oversized_run :
  (do b <- Buffer_ctor 4;
   do b <- Append (Some hello) 2 b;
   do t <- ReadFd (ReadDelivers digits) env0 0 b;
   Ok (t_ret t, readable (t_buf t), ReadableBytes (t_buf t)))
  = Ok (10, take 2 hello ++ digits, 12).
Proof. vm_compute. reflexivity. Qed.

(** ** The cursor invariant *)

Lemma set_buffer_wf (v : list byte) (b : Buffer) :
  wf b -> length v = length (buffer_ b) -> wf (set_buffer v b).
Proof. unfold wf, Inv, set_buffer, vec_size; simpl. intros H ->. done. Qed.

Lemma HasWritten_wf (len : Z) (b : Buffer) :
  wf b -> 0 <= len <= WritableBytes b -> wf (HasWritten len b).
Proof.
  intros Hwf Hlen. pose proof (wf_bounds b Hwf) as Hb.
  rewrite WritableBytes_wf in Hlen by done.
  unfold wf, Inv, HasWritten, set_writePos; simpl. size_t_norm. lia.
Qed.

Lemma RetrieveAll_wf (b : Buffer) : wf b -> wf (RetrieveAll b).
Proof.
  intros Hwf. pose proof (wf_bounds b Hwf) as Hb.
  unfold wf, Inv, RetrieveAll, vec_size in *; simpl.
  rewrite bzero_copy_into, length_copy_into. lia.
Qed.

Lemma Retrieve_wf (len : Z) (b b' : Buffer) :
  wf b -> 0 <= len -> Retrieve len b = Ok b' -> wf b'.
Proof.
  intros Hwf Hlen Hrun.
  destruct (Z.leb_spec len (ReadableBytes b)) as [Hle|Hgt].
  - destruct (Retrieve_ok len b Hwf) as (Heq & Hwf' & _); [lia|]. congruence.
  - unfold Retrieve in Hrun.
    destruct (Z.leb_spec len (ReadableBytes b)); [lia|]. discriminate.
Qed.

Lemma RetrieveUntil_wf (end_ : Z) (b b' : Buffer) :
  wf b -> RetrieveUntil end_ b = Ok b' -> wf b'.
Proof.
  intros Hwf Hrun. unfold RetrieveUntil in Hrun.
  destruct (Peek b <=? end_); simpl in Hrun; [|discriminate].
  apply (Retrieve_wf _ _ _ Hwf) in Hrun; [done|]. apply size_t_range.
Qed.

(** A request that does not wrap around is either met, or refused by the
    vector. *)
Lemma EnsureWriteable_wf (len : Z) (b b' : Buffer) :
  wf b -> writePos_ b + len + 1 <= SIZE_MAX ->
  EnsureWriteable len b = Ok b' -> wf b' /\ len <= WritableBytes b'.
Proof.
  intros Hwf Hnowrap Hrun.
  destruct (decide (allocatable len b)) as [Hfit|Hbig].
  - rewrite EnsureWriteable_ok in Hrun by done. injection Hrun as <-.
    by destruct (ensured_keeps_payload len b Hwf Hfit) as (? & _ & _ & ?).
  - unfold allocatable in Hbig.
    rewrite EnsureWriteable_throw in Hrun; [discriminate|done|lia|lia].
Qed.

Lemma Append_wf (str : option (list byte)) (len : Z) (b b' : Buffer) :
  wf b -> 0 <= len -> writePos_ b + len + 1 <= SIZE_MAX ->
  Append str len b = Ok b' -> wf b'.
Proof.
  intros Hwf Hlen Hnowrap Hrun. unfold Append in Hrun.
  destruct (cassert _); simpl in Hrun; try discriminate.
  destruct (EnsureWriteable len b) as [b1| |] eqn:Hens; simpl in Hrun; try discriminate.
  destruct (EnsureWriteable_wf len b b1 Hwf Hnowrap Hens) as [Hwf1 Hw].
  injection Hrun as <-. apply HasWritten_wf.
  - apply set_buffer_wf; [done|]. apply length_copy_into.
  - split; [done|]. unfold WritableBytes, set_buffer, vec_size in *; simpl.
    by rewrite length_copy_into.
Qed.

Lemma ReadFd_wf (fd : read_source) (env : Env) (saveErrno : Z) (b : Buffer) (t : transfer) :
  wf b -> ReadFd fd env saveErrno b = Ok t -> wf (t_buf t).
Proof.
  intros Hwf Hrun. pose proof (wf_bounds b Hwf) as Hb.
  pose proof (WritableBytes_wf b Hwf) as HW.
  destruct fd as [e|avail].
  - unfold ReadFd in Hrun; simpl in Hrun. injection Hrun as <-. simpl. by destruct b.
  - destruct (ReadFd_delivers avail env saveErrno b Hwf) as (Hd & _ & Heq).
    rewrite Heq in Hrun. clear Heq.
    set (n := Z.min (vec_size avail) (WritableBytes b + BUFF_SIZE)) in *.
    set (d := take (Z.to_nat n) avail) in *.
    case_decide as Hfits.
    + injection Hrun as <-. simpl. apply written_spec; [done|lia].
    + set (w := Z.to_nat (WritableBytes b)) in *.
      assert (Hw : vec_size (take w d) = WritableBytes b).
      { unfold vec_size in *. rewrite length_take. lia. }
      destruct (written_spec (take w d) b Hwf) as (Hwf1 & _); [lia|].
      destruct (Append _ _ _) as [b2| |] eqn:Happ; simpl in Hrun; try discriminate.
      injection Hrun as <-. simpl.
      apply (Append_wf _ _ _ _ Hwf1) in Happ; [done|lia|].
      unfold written; simpl. rewrite Hw.
      assert (n <= WritableBytes b + BUFF_SIZE) by (unfold n; lia).
      unfold_consts. lia.
Qed.

Lemma WriteFd_wf (fd : write_sink) (env : Env) (saveErrno : Z) (b : Buffer) :
  wf b -> wf (t_buf (WriteFd fd env saveErrno b)).
Proof.
  intros Hwf. destruct fd as [e|room].
  - by rewrite WriteFd_fails.
  - by destruct (WriteFd_accepts env room saveErrno b Hwf) as (-> & _ & ? & _).
Qed.

Create HintDb buffer_wf.

#[local] Hint Resolve HasWritten_wf RetrieveAll_wf WriteFd_wf : buffer_wf.
#[local] Hint Resolve RetrieveUntil_wf ReadFd_wf : buffer_wf.
#[local] Hint Extern 1 (_ <= _) => lia : buffer_wf.
#[local] Hint Extern 1 (_ <= _ <= _) => lia : buffer_wf.

Lemma exec_wf (o : op) (b b' : Buffer) :
  wf b -> typed o -> owed o b -> exec o b = Ok b' -> wf b'.
Proof.
  intros Hwf Hty Howed Hrun.
  destruct o as [len|end_| | |len|str len|len|fd env saveErrno|fd env saveErrno];
    simpl in *.
  - apply (Retrieve_wf len b b'); auto with buffer_wf.
  - eauto with buffer_wf.
  - injection Hrun as <-. auto with buffer_wf.
  - injection Hrun as <-. auto with buffer_wf.
  - injection Hrun as <-. auto with buffer_wf.
  - apply (Append_wf str len b b'); auto with buffer_wf.
  - apply (EnsureWriteable_wf len b b'); auto with buffer_wf.
  - destruct (ReadFd fd env saveErrno b) as [t| |] eqn:Hread; simpl in Hrun;
      try discriminate.
    injection Hrun as <-. eauto with buffer_wf.
  - injection Hrun as <-. auto with buffer_wf.
Qed.

(** A negative [int] converts to a size no vector can have: the constructor
    throws. *)
Lemma Buffer_ctor_wf (c : Z) (b : Buffer) :
  INT_MIN <= c <= INT_MAX -> Buffer_ctor c = Ok b -> wf b.
Proof.
  intros Hc Hrun. unfold Buffer_ctor, vec_new in Hrun.
  destruct (decide (c < 0)) as [Hneg|Hpos].
  - rewrite size_t_neg in Hrun by (unfold_consts; lia).
    destruct (Z.ltb_spec max_size (c + 2 ^ 64)); [discriminate|unfold_consts; lia].
  - rewrite size_t_id in Hrun by (unfold_consts; lia).
    destruct (Z.ltb_spec max_size c); [unfold_consts; lia|].
    injection Hrun as <-. unfold wf, Inv, vec_size; simpl.
    rewrite length_replicate. unfold_consts. lia.
Qed.

(** The claim as C2 words it, for all sequences of public operations, fails
    at the first call: on a fresh buffer of capacity 10, [HasWritten(11)]
    puts the write cursor past the end of the store. *)
Lemma HasWritten_breaks_invariant :
  ~ (forall b : Buffer, reached (fun _ _ => True) b -> Inv b).
Proof.
  intros H.
  assert (Hctor : Buffer_ctor 10 = Ok (mkBuffer (replicate 10 x00) 0 0)) by done.
  assert (Hcall : exec (OpHasWritten 11) (mkBuffer (replicate 10 x00) 0 0)
                  = Ok (mkBuffer (replicate 10 x00) 0 11)) by done.
  assert (Hreach : reached (fun _ _ => True) (mkBuffer (replicate 10 x00) 0 11)).
  { eapply reached_call; [eapply reached_ctor| | |exact Hcall]; [|exact Hctor| |done].
    - unfold INT_MAX, INT_MIN. lia.
    - simpl. unfold SIZE_MAX. lia. }
  apply H in Hreach. unfold Inv, vec_size in Hreach; simpl in Hreach. lia.
Qed.

(** C2, amended: over all sequences of public operations in which
    [HasWritten] is told no more than is writable, and in which no request
    for space wraps around, the cursors satisfy
    [0 <= readPos <= writePos <= store.size()] after every call that
    returns. *)
Theorem reached_Inv (b : Buffer) :
  reached owed b -> Inv b.
Proof.
  intros Hreach. cut (wf b); [by intros [? _]|].
  induction Hreach as [c b Hc Hctor|o b b' _ IH Hty Howed Hrun].
  - by apply (Buffer_ctor_wf c).
  - by apply (exec_wf o b b').
Qed.

Lemma checked_run_reached (ops : list op) : forall (b : Buffer) (bs : list Buffer),
  reached owed b -> checked_run ops b = Some bs -> Forall (reached owed) bs.
Proof.
  induction ops as [|o ops IH]; intros b bs Hreach Hrun; simpl in Hrun.
  - injection Hrun as <-. constructor.
  - case_bool_decide as Hok; [|discriminate]. destruct Hok as [Hty Howed].
    destruct (exec o b) as [b1| |] eqn:Hstep; try discriminate.
    assert (Hreach1 : reached owed b1) by by apply (reached_call owed o b b1).
    destruct (checked_run ops b1) as [bs1|] eqn:Hrest; simpl in Hrun; [|discriminate].
    injection Hrun as <-. constructor; [done|]. by apply (IH b1).
Qed.

Lemma a_run_checked :
  checked_run a_run (mkBuffer (replicate 10 x00) 0 0) = Some a_run_states.
Proof. vm_compute. reflexivity. Qed.

Lemma a_run_reached : Forall (reached owed) a_run_states.
Proof.
  apply (checked_run_reached a_run (mkBuffer (replicate 10 x00) 0 0)).
  - apply (reached_ctor owed 10); [unfold INT_MAX, INT_MIN; lia|done].
  - exact a_run_checked.
Qed.

Lemma reached_Inv_a_run :
  length a_run_states = length a_run /\
  Forall (reached owed) a_run_states /\ Forall Inv a_run_states.
Proof.
  split; [reflexivity|]. split; [exact a_run_reached|].
  apply (Forall_impl _ _ _ a_run_reached). exact reached_Inv.
Defined.

(** * Further properties of the code *)

(** ** The three regions *)

(** X1: on a well-formed buffer the prependable, readable and writable byte
    counts add up to the size of the store, none is negative, and the write
    pointer is the read pointer plus the readable count. *)
Theorem regions_partition (b : Buffer) :
  wf b ->
  PrependableBytes b + ReadableBytes b + WritableBytes b = vec_size (buffer_ b) /\
  0 <= PrependableBytes b /\ 0 <= ReadableBytes b /\ 0 <= WritableBytes b /\
  BeginWrite b = Peek b + ReadableBytes b /\
  BeginWriteConst b = BeginWrite b.
Proof.
  intros Hwf. pose proof (wf_bounds b Hwf) as Hb.
  rewrite ReadableBytes_wf, WritableBytes_wf by done.
  unfold PrependableBytes, BeginWrite, BeginWriteConst, Peek, BeginPtr_.
  split_and!; lia.
Qed.

Lemma regions_partition_234 :
  wf b_234 /\
  PrependableBytes b_234 + ReadableBytes b_234 + WritableBytes b_234
    = vec_size (buffer_ b_234) /\
  0 <= PrependableBytes b_234 /\ 0 <= ReadableBytes b_234 /\ 0 <= WritableBytes b_234 /\
  BeginWrite b_234 = Peek b_234 + ReadableBytes b_234 /\
  BeginWriteConst b_234 = BeginWrite b_234.
Proof. split; [exact b_234_wf|]. exact (regions_partition b_234 b_234_wf). Defined.

(** ** Construction with a negative capacity *)

(** X2: a negative [int] capacity never yields a buffer: converted to the
    vector's size type it exceeds [max_size()] and the constructor throws. *)
Theorem Buffer_ctor_negative (c : Z) :
  INT_MIN <= c < 0 -> Buffer_ctor c = LengthError.
Proof.
  intros Hc. unfold Buffer_ctor, vec_new.
  rewrite size_t_neg by (unfold_consts; lia).
  destruct (Z.ltb_spec max_size (c + 2 ^ 64)); [done|unfold_consts; lia].
Qed.

Lemma Buffer_ctor_negative_1 : Buffer_ctor (-1) = LengthError.
Proof. apply (Buffer_ctor_negative (-1)). unfold INT_MIN. lia. Defined.

(** ** Consuming *)

Lemma readable_advance (n : Z) (b : Buffer) :
  wf b -> 0 <= n <= ReadableBytes b ->
  readable (set_readPos (readPos_ b + n) b) = drop (Z.to_nat n) (readable b).
Proof.
  intros Hwf Hn. pose proof (wf_bounds b Hwf) as Hb.
  rewrite ReadableBytes_wf in Hn by done.
  unfold readable, mem_read, set_readPos; simpl.
  replace (Z.to_nat (writePos_ b - readPos_ b))
    with (Z.to_nat n + Z.to_nat (writePos_ b - (readPos_ b + n)))%nat by lia.
  rewrite <- take_drop_commute, drop_drop. do 2 f_equal. lia.
Qed.

(** X3: [Retrieve(len)] with [len] within the readable count drops exactly
    the first [len] bytes of the payload, touching neither the store nor the
    write cursor; with [len] beyond the readable count it fails its
    assertion. *)
Theorem Retrieve_consumes (len : Z) (b : Buffer) :
  wf b -> 0 <= len <= SIZE_MAX ->
  (len <= ReadableBytes b ->
   exists b',
     Retrieve len b = Ok b' /\ wf b' /\
     readable b' = drop (Z.to_nat len) (readable b) /\
     ReadableBytes b' = ReadableBytes b - len /\
     PrependableBytes b' = PrependableBytes b + len /\
     buffer_ b' = buffer_ b /\ writePos_ b' = writePos_ b) /\
  (ReadableBytes b < len -> Retrieve len b = AssertFail).
Proof.
  intros Hwf Hlen. split.
  - intros Hle.
    destruct (Retrieve_ok len b Hwf) as (Hrun & Hwf' & Hrb); [lia|].
    eexists. split; [exact Hrun|].
    split_and!; try done. apply readable_advance; [done|lia].
  - intros Hgt. unfold Retrieve.
    destruct (Z.leb_spec len (ReadableBytes b)); [lia|done].
Qed.

Lemma Retrieve_consumes_234 :
  (wf b_234 /\ 0 <= 2 <= SIZE_MAX) /\
  (2 <= ReadableBytes b_234 ->
   exists b',
     Retrieve 2 b_234 = Ok b' /\ wf b' /\
     readable b' = drop (Z.to_nat 2) (readable b_234) /\
     ReadableBytes b' = ReadableBytes b_234 - 2 /\
     PrependableBytes b' = PrependableBytes b_234 + 2 /\
     buffer_ b' = buffer_ b_234 /\ writePos_ b' = writePos_ b_234) /\
  (ReadableBytes b_234 < 2 -> Retrieve 2 b_234 = AssertFail).
Proof.
  assert (H2 : 0 <= 2 <= SIZE_MAX) by (unfold SIZE_MAX; lia).
  split; [split; [exact b_234_wf|exact H2]|].
  exact (Retrieve_consumes 2 b_234 b_234_wf H2).
Defined.

(** X4: [RetrieveUntil(end)] with [end] inside the readable region (its end
    included) moves the read pointer to [end], as [Retrieve(end - Peek())]
    does; with [end] before [Peek()] or past the last readable byte it fails
    an assertion. *)
Theorem RetrieveUntil_moves_to_end (end_ : Z) (b : Buffer) :
  wf b -> end_ <= SIZE_MAX ->
  (Peek b <= end_ <= Peek b + ReadableBytes b ->
   exists b',
     RetrieveUntil end_ b = Ok b' /\
     Retrieve (end_ - Peek b) b = Ok b' /\
     Peek b' = end_ /\
     readable b' = drop (Z.to_nat (end_ - Peek b)) (readable b)) /\
  (end_ < Peek b -> RetrieveUntil end_ b = AssertFail) /\
  (Peek b + ReadableBytes b < end_ -> RetrieveUntil end_ b = AssertFail).
Proof.
  intros Hwf Hend. pose proof (wf_bounds b Hwf) as Hb.
  pose proof (ReadableBytes_wf b Hwf) as Hrb.
  unfold RetrieveUntil, Peek, BeginPtr_ in *. rewrite !Z.add_0_l in *.
  split_and!.
  - intros Hin.
    destruct (Z.leb_spec (readPos_ b) end_); [|lia]. simpl.
    rewrite size_t_id by (unfold_consts; lia).
    destruct (Retrieve_ok (end_ - readPos_ b) b Hwf) as (Hrun & Hwf' & _); [lia|].
    eexists. split_and!; try exact Hrun.
    + simpl. lia.
    + apply readable_advance; [done|lia].
  - intros Hlt. by destruct (Z.leb_spec (readPos_ b) end_); [lia|].
  - intros Hgt. destruct (Z.leb_spec (readPos_ b) end_); [|done]. simpl.
    rewrite size_t_id by (unfold_consts; lia).
    unfold Retrieve.
    destruct (Z.leb_spec (end_ - readPos_ b) (ReadableBytes b)); [lia|done].
Qed.

Lemma RetrieveUntil_moves_to_end_234 :
  (wf b_234 /\ 4 <= SIZE_MAX) /\
  (Peek b_234 <= 4 <= Peek b_234 + ReadableBytes b_234 ->
   exists b',
     RetrieveUntil 4 b_234 = Ok b' /\
     Retrieve (4 - Peek b_234) b_234 = Ok b' /\
     Peek b' = 4 /\
     readable b' = drop (Z.to_nat (4 - Peek b_234)) (readable b_234)) /\
  (4 < Peek b_234 -> RetrieveUntil 4 b_234 = AssertFail) /\
  (Peek b_234 + ReadableBytes b_234 < 4 -> RetrieveUntil 4 b_234 = AssertFail).
Proof.
  assert (H4 : 4 <= SIZE_MAX) by (unfold SIZE_MAX; lia).
  split; [split; [exact b_234_wf|exact H4]|].
  exact (RetrieveUntil_moves_to_end 4 b_234 b_234_wf H4).
Defined.

(** ** Producing *)

(** X5: [HasWritten(len)] with [len] within the writable count makes exactly
    the [len] bytes that sit at the write pointer part of the payload, after
    the bytes already readable; the store and the read cursor stay. *)
Theorem HasWritten_exposes_tail (len : Z) (b : Buffer) :
  wf b -> 0 <= len <= WritableBytes b ->
  wf (HasWritten len b) /\
  readable (HasWritten len b) =
    readable b ++ mem_read (buffer_ b) (BeginWrite b) len /\
  ReadableBytes (HasWritten len b) = ReadableBytes b + len /\
  WritableBytes (HasWritten len b) = WritableBytes b - len /\
  buffer_ (HasWritten len b) = buffer_ b /\
  readPos_ (HasWritten len b) = readPos_ b.
Proof.
  intros Hwf Hlen. pose proof (wf_bounds b Hwf) as Hb.
  pose proof (HasWritten_wf len b Hwf Hlen) as Hwf'.
  pose proof (wf_bounds _ Hwf') as Hb'.
  rewrite WritableBytes_wf in Hlen by done.
  assert (Hw : writePos_ (HasWritten len b) = writePos_ b + len).
  { unfold HasWritten, set_writePos; simpl. by size_t_norm. }
  split_and!; try done.
  - unfold readable, mem_read, BeginWrite, BeginPtr_. rewrite Hw.
    unfold HasWritten, set_writePos; simpl. rewrite Z.add_0_l.
    replace (Z.to_nat (writePos_ b + len - readPos_ b))
      with (Z.to_nat (writePos_ b - readPos_ b) + Z.to_nat len)%nat by lia.
    rewrite <- take_take_drop, drop_drop. do 3 f_equal. lia.
  - rewrite !ReadableBytes_wf, Hw by done. unfold HasWritten; simpl. lia.
  - rewrite !WritableBytes_wf, Hw by done. unfold HasWritten; simpl. lia.
Qed.

Lemma HasWritten_exposes_tail_234 :
  (wf b_234 /\ 0 <= 2 <= WritableBytes b_234) /\
  wf (HasWritten 2 b_234) /\
  readable (HasWritten 2 b_234) =
    readable b_234 ++ mem_read (buffer_ b_234) (BeginWrite b_234) 2 /\
  ReadableBytes (HasWritten 2 b_234) = ReadableBytes b_234 + 2 /\
  WritableBytes (HasWritten 2 b_234) = WritableBytes b_234 - 2 /\
  buffer_ (HasWritten 2 b_234) = buffer_ b_234 /\
  readPos_ (HasWritten 2 b_234) = readPos_ b_234.
Proof.
  assert (H2 : 0 <= 2 <= WritableBytes b_234) by (vm_compute; split; discriminate).
  split; [split; [exact b_234_wf|exact H2]|].
  exact (HasWritten_exposes_tail 2 b_234 b_234_wf H2).
Defined.

Lemma ensured_size (len : Z) (b : Buffer) :
  wf b -> allocatable len b ->
  vec_size (buffer_ b) <= vec_size (buffer_ (ensured len b)) /\
  (len <= WritableBytes b + PrependableBytes b ->
   vec_size (buffer_ (ensured len b)) = vec_size (buffer_ b)) /\
  writePos_ (ensured len b) <= writePos_ b.
Proof.
  intros Hwf Hfit. pose proof (wf_bounds b Hwf) as Hb.
  pose proof (WritableBytes_wf b Hwf) as HW.
  unfold ensured. destruct (decide (len <= WritableBytes b)); [done|].
  destruct (decide (WritableBytes b + PrependableBytes b < len)) as [Hg|Hc].
  - destruct (grown_keeps_payload len b Hwf) as (_ & Hsz & _ & Hw); [lia|auto|].
    rewrite Hsz, Hw. unfold PrependableBytes in *. lia.
  - destruct (compacted_keeps_payload len b Hwf) as (_ & Hsz & _ & Hw); [lia|].
    rewrite Hsz, Hw, ReadableBytes_wf by done. lia.
Qed.

(** X6: [Append(str, len)] with a non-null [str] of at least [len] bytes, on
    an allocatable request, puts the first [len] bytes of [str] after the
    payload and leaves the bytes already readable as they were; the store
    never gets smaller, and keeps its size when the writable tail and the
    consumed front together can hold [len] bytes; when [len] fits in the
    writable tail only the write cursor moves; a zero-length append changes
    nothing; a null [str] fails the assertion. *)
Theorem Append_appends (str : list byte) (len : Z) (b : Buffer) :
  wf b -> 0 <= len <= vec_size str -> allocatable len b ->
  (exists b',
     Append (Some str) len b = Ok b' /\ wf b' /\
     readable b' = readable b ++ take (Z.to_nat len) str /\
     ReadableBytes b' = ReadableBytes b + len /\
     vec_size (buffer_ b) <= vec_size (buffer_ b') /\
     (len <= WritableBytes b + PrependableBytes b ->
        vec_size (buffer_ b') = vec_size (buffer_ b)) /\
     (len <= WritableBytes b ->
        readPos_ b' = readPos_ b /\ writePos_ b' = writePos_ b + len) /\
     (len = 0 -> b' = b)) /\
  Append None len b = AssertFail.
Proof.
  intros Hwf Hlen Hfit. split; [|done].
  pose proof (wf_bounds b Hwf) as Hb.
  pose proof (ensured_keeps_payload len b Hwf Hfit) as (Hwf1 & Hrd & Hrb & Hw).
  assert (Hsrc : vec_size (take (Z.to_nat len) str) = len).
  { unfold vec_size in *. rewrite length_take. lia. }
  destruct (written_spec (take (Z.to_nat len) str) (ensured len b))
    as (Hwf' & Hrd' & Hrb' & Hsz'); [done|lia|].
  destruct (ensured_size len b Hwf Hfit) as (Hgrow & Hsame & _).
  eexists. split; [by apply Append_written|].
  split_and!; try done.
  - by rewrite Hrd', Hrd.
  - by rewrite Hrb', Hrb, Hsrc.
  - by rewrite Hsz'.
  - intros Hreclaim. rewrite Hsz'. by apply Hsame.
  - intros Hroom.
    assert (He : ensured len b = b) by (unfold ensured; by rewrite decide_True).
    rewrite He in *. split; [done|].
    unfold written; simpl. by rewrite Hsrc.
  - intros ->.
    assert (He : ensured 0 b = b).
    { unfold ensured. rewrite decide_True; [done|].
      rewrite WritableBytes_wf by done. lia. }
    rewrite He. unfold written; simpl.
    destruct b as [s r w]; simpl. f_equal. lia.
Qed.

Lemma b_234_hello_allocatable : allocatable 5 b_234.
Proof. intros H. vm_compute in H. discriminate H. Qed.

Lemma Append_appends_234 :
  (wf b_234 /\ 0 <= 5 <= vec_size hello /\ allocatable 5 b_234) /\
  (exists b',
     Append (Some hello) 5 b_234 = Ok b' /\ wf b' /\
     readable b' = readable b_234 ++ take (Z.to_nat 5) hello) /\
  Append None 5 b_234 = AssertFail.
Proof.
  assert (H5 : 0 <= 5 <= vec_size hello) by (vm_compute; split; discriminate).
  split; [split; [exact b_234_wf|split; [exact H5|exact b_234_hello_allocatable]]|].
  destruct (Append_appends hello 5 b_234 b_234_wf H5 b_234_hello_allocatable)
    as [(b' & Hrun & Hwf & Hrd & _) Hnull].
  split; [|exact Hnull]. exists b'. split_and!; assumption.
Defined.

(** X7: two appends in a row leave the payload followed by the first and then
    the second sequence, the same payload as one append of the two sequences
    joined (the store itself may differ in size). *)
Theorem Append_twice (s1 s2 : list byte) (b : Buffer) :
  wf b ->
  writePos_ b + vec_size s1 + vec_size s2 + 1 <= max_size ->
  exists b1 b2 b12,
    Append (Some s1) (vec_size s1) b = Ok b1 /\
    Append (Some s2) (vec_size s2) b1 = Ok b2 /\
    Append (Some (s1 ++ s2)) (vec_size (s1 ++ s2)) b = Ok b12 /\
    readable b2 = readable b ++ s1 ++ s2 /\
    readable b12 = readable b2 /\
    ReadableBytes b2 = ReadableBytes b + vec_size s1 + vec_size s2.
Proof.
  intros Hwf Hfit.
  assert (Hs1 : 0 <= vec_size s1) by (unfold vec_size; lia).
  assert (Hs2 : 0 <= vec_size s2) by (unfold vec_size; lia).
  assert (Hs12 : vec_size (s1 ++ s2) = vec_size s1 + vec_size s2).
  { unfold vec_size. rewrite length_app. lia. }
  assert (Hfit1 : allocatable (vec_size s1) b) by (intros _; lia).
  assert (Hfit12 : allocatable (vec_size (s1 ++ s2)) b) by (intros _; lia).
  destruct (Append_ok s1 (vec_size s1) b) as (b1 & Hrun1 & Hwf1 & Hrd1 & Hrb1);
    [done|lia|done|].
  assert (Hw1 : writePos_ b1 <= writePos_ b + vec_size s1).
  { rewrite Append_written in Hrun1 by (done || lia). injection Hrun1 as <-.
    destruct (ensured_size (vec_size s1) b Hwf Hfit1) as (_ & _ & Hw).
    unfold written, vec_size in *; simpl. rewrite length_take. lia. }
  destruct (Append_ok s2 (vec_size s2) b1) as (b2 & Hrun2 & Hwf2 & Hrd2 & Hrb2);
    [done|lia|intros _; lia|].
  destruct (Append_ok (s1 ++ s2) (vec_size (s1 ++ s2)) b)
    as (b12 & Hrun12 & Hwf12 & Hrd12 & Hrb12); [done|lia|done|].
  exists b1, b2, b12.
  rewrite !take_ge in * by (unfold vec_size; lia).
  split_and!; try done.
  - by rewrite Hrd2, Hrd1, <- app_assoc.
  - by rewrite Hrd12, Hrd2, Hrd1, <- app_assoc.
  - lia.
Qed.

Lemma b_234_room_twice :
  writePos_ b_234 + vec_size hello + vec_size digits + 1 <= max_size.
Proof. vm_compute. discriminate. Qed.

Lemma Append_twice_234 :
  (wf b_234 /\ writePos_ b_234 + vec_size hello + vec_size digits + 1 <= max_size) /\
  exists b1 b2 b12,
    Append (Some hello) (vec_size hello) b_234 = Ok b1 /\
    Append (Some digits) (vec_size digits) b1 = Ok b2 /\
    Append (Some (hello ++ digits)) (vec_size (hello ++ digits)) b_234 = Ok b12 /\
    readable b2 = readable b_234 ++ hello ++ digits /\
    readable b12 = readable b2 /\
    ReadableBytes b2 = ReadableBytes b_234 + vec_size hello + vec_size digits.
Proof.
  split; [split; [exact b_234_wf|exact b_234_room_twice]|].
  exact (Append_twice hello digits b_234 b_234_wf b_234_room_twice).
Defined.

Lemma b_digits_wf : wf b_digits.
Proof. unfold wf, Inv, b_digits, vec_size, max_size; simpl. lia. Qed.

(** What lies at the old read position once the payload of [n] bytes has been
    moved from offset [r] to offset 0: the tail of the moved payload, then
    the bytes of the old payload the move did not reach. *)
Lemma read_compacted (mem : list byte) (r n : nat) :
  (r + n <= length mem)%nat ->
  take n (drop r (copy_within n r 0 mem)) =
  drop r (take n (drop r mem)) ++ drop (n - r) (take n (drop r mem)).
Proof.
  intros Hlen. apply list_eq. intros i.
  destruct (decide (i < n)%nat) as [Hi|Hi].
  - rewrite lookup_take_lt, lookup_drop by done.
    rewrite lookup_copy_within by lia.
    destruct (decide (r + i < n)%nat) as [Hmoved|Hold].
    + rewrite decide_True by lia.
      rewrite lookup_app_l by (rewrite length_drop, length_take, length_drop; lia).
      rewrite lookup_drop, lookup_take_lt, lookup_drop by lia. f_equal. lia.
    + rewrite decide_False by lia.
      rewrite lookup_app_r by (rewrite length_drop, length_take, length_drop; lia).
      rewrite length_drop, length_take, length_drop.
      rewrite lookup_drop, lookup_take_lt, lookup_drop by lia. f_equal. lia.
  - rewrite lookup_take_ge by lia. symmetry. apply lookup_ge_None.
    rewrite length_app, !length_drop, !length_take, !length_drop. lia.
Qed.

Lemma HasWritten_written (src : list byte) (len : Z) (b : Buffer) :
  wf b -> vec_size src = len -> len <= WritableBytes b ->
  HasWritten len (set_buffer (copy_into src (Z.to_nat (BeginWrite b)) (buffer_ b)) b)
  = written src b.
Proof.
  intros Hwf Hsrc Hle. pose proof (wf_bounds b Hwf) as Hb.
  rewrite WritableBytes_wf in Hle by done.
  assert (0 <= len) by (unfold vec_size in Hsrc; lia).
  unfold HasWritten, written, set_writePos, set_buffer, BeginWrite, BeginPtr_; simpl.
  size_t_norm. rewrite Z.add_0_l, Hsrc. done.
Qed.

Lemma Peek_ptr_Some (b : Buffer) :
  0 < vec_size (buffer_ b) ->
  Peek_ptr b = Some (drop (Z.to_nat (Peek b)) (buffer_ b)).
Proof.
  intros Hpos. unfold Peek_ptr.
  destruct (Z.eqb_spec (vec_size (buffer_ b)) 0); [lia|done].
Qed.

(** X8: the overloads of [Append].  Appending another buffer (one that has a
    store) appends that buffer's payload.  Appending a buffer to itself
    doubles the payload when it fits in the writable tail; when the store
    has to be compacted first, what is appended is what lies at the old read
    position after the move, which is the old payload only if the read
    position was at least the payload's length.  Appending a string appends
    all of it; the untyped overload fails its assertion on a null pointer
    and is the primitive otherwise. *)
Theorem Append_overloads (b : Buffer) :
  wf b ->
  (forall buff : Buffer,
     wf buff -> 0 < vec_size (buffer_ buff) ->
     allocatable (ReadableBytes buff) b ->
     exists b',
       Append_Buffer (OtherBuffer buff) b = Some (Ok b') /\ wf b' /\
       readable b' = readable b ++ readable buff) /\
  (0 < vec_size (buffer_ b) -> ReadableBytes b <= WritableBytes b ->
   exists b',
     Append_Buffer ThisBuffer b = Some (Ok b') /\ wf b' /\
     readable b' = readable b ++ readable b) /\
  (WritableBytes b < ReadableBytes b <= WritableBytes b + PrependableBytes b ->
   exists b',
     Append_Buffer ThisBuffer b = Some (Ok b') /\ wf b' /\
     readable b' =
       readable b ++
       drop (Z.to_nat (readPos_ b)) (readable b) ++
       drop (Z.to_nat (ReadableBytes b) - Z.to_nat (readPos_ b)) (readable b)) /\
  (forall str : list byte,
     allocatable (vec_size str) b ->
     exists b',
       Append_string str b = Ok b' /\ wf b' /\ readable b' = readable b ++ str) /\
  (forall len : Z, Append_void None len b = AssertFail) /\
  (forall (data : list byte) (len : Z),
     Append_void (Some data) len b = Append (Some data) len b).
Proof.
  intros Hwf. pose proof (wf_bounds b Hwf) as Hb.
  pose proof (ReadableBytes_wf b Hwf) as HR.
  pose proof (WritableBytes_wf b Hwf) as HW.
  split_and!; [| | | |done|done].
  - intros buff Hwfo Hpos Hfit. pose proof (wf_bounds buff Hwfo) as Hbo.
    pose proof (ReadableBytes_wf buff Hwfo) as Hrbo.
    unfold Append_Buffer. rewrite Peek_ptr_Some by done.
    destruct (Append_ok (drop (Z.to_nat (Peek buff)) (buffer_ buff))
                (ReadableBytes buff) b) as (b' & Hrun & Hwf' & Hrd & _); [done| |done|].
    { unfold vec_size, Peek, BeginPtr_ in *. rewrite length_drop. lia. }
    exists b'. split_and!; [by rewrite Hrun|done|].
    rewrite Hrd, Hrbo. unfold readable, mem_read, Peek, BeginPtr_.
    by rewrite Z.add_0_l.
  - intros Hpos Hroom. unfold Append_Buffer.
    destruct (Z.ltb_spec (WritableBytes b) (ReadableBytes b)); [lia|]. simpl.
    rewrite Peek_ptr_Some by done. simpl.
    rewrite EnsureWriteable_enough by done. simpl.
    rewrite mem_read_Peek by done.
    rewrite HasWritten_written; [|done|by apply length_readable|done].
    destruct (written_spec (readable b) b Hwf) as (Hwf' & Hrd & _).
    { rewrite <- (length_readable b Hwf) in Hroom. done. }
    exists (written (readable b) b). split_and!; done.
  - intros [Hlt Hreclaim]. unfold Append_Buffer.
    destruct (Z.ltb_spec (WritableBytes b) (ReadableBytes b)); [|lia].
    unfold PrependableBytes in *.
    rewrite (size_t_id (WritableBytes b + readPos_ b)) by (unfold_consts; lia).
    destruct (Z.ltb_spec (WritableBytes b + readPos_ b) (ReadableBytes b)); [lia|].
    simpl. rewrite Peek_ptr_Some by lia. simpl.
    assert (Hfit : allocatable (ReadableBytes b) b).
    { intros ?. unfold PrependableBytes in *. lia. }
    rewrite EnsureWriteable_ok by done.
    assert (He : ensured (ReadableBytes b) b = compacted b).
    { unfold ensured. rewrite decide_False by lia.
      by rewrite decide_False by (unfold PrependableBytes; lia). }
    rewrite He. simpl.
    destruct (compacted_keeps_payload (ReadableBytes b) b Hwf)
      as ((Hwfc & Hrdc & Hrbc & Hwc) & Hszc & Hrc & Hwpc);
      [unfold PrependableBytes; lia|].
    set (src := mem_read (buffer_ (compacted b)) (Peek b) (ReadableBytes b)).
    assert (Hsrc : src =
      drop (Z.to_nat (readPos_ b)) (readable b) ++
      drop (Z.to_nat (ReadableBytes b) - Z.to_nat (readPos_ b)) (readable b)).
    { unfold src, mem_read, compacted, readable, mem_read, Peek, BeginPtr_; simpl.
      rewrite Z.add_0_l, HR. apply read_compacted.
      unfold vec_size in *. lia. }
    assert (Hlen : vec_size src = ReadableBytes b).
    { unfold src, mem_read, vec_size, Peek, BeginPtr_ in *.
      rewrite length_take, length_drop, Z.add_0_l. lia. }
    rewrite HasWritten_written by done.
    destruct (written_spec src (compacted b) Hwfc) as (Hwf' & Hrd & _); [lia|].
    exists (written src (compacted b)). split_and!; [done|done|].
    by rewrite Hrd, Hrdc, Hsrc.
  - intros str Hfit. unfold Append_string.
    destruct (Append_ok str (vec_size str) b) as (b' & Hrun & Hwf' & Hrd & _);
      [done|unfold vec_size; lia|done|].
    exists b'. split_and!; try done.
    rewrite Hrd, take_ge; [done|unfold vec_size; lia].
Qed.

Lemma b_2345_wf : wf b_2345.
Proof. unfold wf, Inv, b_2345, vec_size, max_size; simpl. lia. Qed.

Lemma b_2345_compacts :
  WritableBytes b_2345 < ReadableBytes b_2345
    <= WritableBytes b_2345 + PrependableBytes b_2345.
Proof. split; vm_compute; (reflexivity || discriminate). Qed.

Lemma Append_overloads_2345 :
  (wf b_2345 /\
   (WritableBytes b_2345 < ReadableBytes b_2345
      <= WritableBytes b_2345 + PrependableBytes b_2345)) /\
  exists b',
    Append_Buffer ThisBuffer b_2345 = Some (Ok b') /\ wf b' /\
    readable b' =
      readable b_2345 ++
      drop (Z.to_nat (readPos_ b_2345)) (readable b_2345) ++
      drop (Z.to_nat (ReadableBytes b_2345) - Z.to_nat (readPos_ b_2345))
        (readable b_2345).
Proof.
  split; [split; [exact b_2345_wf|exact b_2345_compacts]|].
  exact (proj1 (proj2 (proj2 (Append_overloads b_2345 b_2345_wf))) b_2345_compacts).
Defined.

(** The store "012345" with two spare bytes, read position 2: appended to
    itself it holds "23454545", and another buffer with the same contents
    appended to it gives "23452345". *)
Example Append_Buffer_self_run :
  Append_Buffer ThisBuffer b_2345 =
    Some (Ok (mkBuffer (take 4 (drop 2 digits) ++ take 2 (drop 4 digits) ++
                        take 2 (drop 4 digits)) 0 8)) /\
  Append_Buffer (OtherBuffer b_2345) b_2345 =
    Some (Ok (mkBuffer (take 4 (drop 2 digits) ++ take 4 (drop 2 digits)) 0 8)).
Proof. split; vm_compute; reflexivity. Qed.

(** ** Making space, exactly *)

(** X9: what [MakeSpace_] leaves on an allocatable request the writable tail
    cannot meet.  When even the consumed front would not do, the store keeps
    its bytes and gains zero bytes up to [writePos + len + 1], the cursors
    stay, and exactly [len + 1] bytes are writable; otherwise the store keeps
    its size, the payload moves to offset 0, and the writable count is the
    old writable plus the old prependable count. *)
Theorem MakeSpace_grows_or_compacts (len : Z) (b : Buffer) :
  wf b -> WritableBytes b < len -> allocatable len b ->
  exists b',
    MakeSpace_ len b = Ok b' /\ wf b' /\ readable b' = readable b /\
    if decide (WritableBytes b + PrependableBytes b < len)
    then buffer_ b' =
           buffer_ b ++
           replicate (Z.to_nat (writePos_ b + len + 1 - vec_size (buffer_ b))) x00 /\
         readPos_ b' = readPos_ b /\ writePos_ b' = writePos_ b /\
         WritableBytes b' = len + 1
    else vec_size (buffer_ b') = vec_size (buffer_ b) /\
         readPos_ b' = 0 /\ writePos_ b' = ReadableBytes b /\
         PrependableBytes b' = 0 /\
         WritableBytes b' = WritableBytes b + PrependableBytes b.
Proof.
  intros Hwf Hlt Hfit. pose proof (wf_bounds b Hwf) as Hb.
  pose proof (WritableBytes_wf b Hwf) as HW.
  pose proof (ReadableBytes_wf b Hwf) as HR.
  case_decide as Hgrow.
  - destruct (grown_keeps_payload len b Hwf Hlt (Hfit Hgrow))
      as ((Hwf' & Hrd & _ & _) & Hsz & Hr & Hw).
    exists (grown len b). split; [by apply MakeSpace_grow; auto|].
    split_and!; try done.
    + unfold grown; simpl. rewrite resize_ge by (unfold vec_size in *; lia).
      do 2 f_equal. unfold vec_size. lia.
    + rewrite WritableBytes_wf, Hsz, Hw by done. lia.
  - destruct (compacted_keeps_payload len b Hwf)
      as ((Hwf' & Hrd & _ & _) & Hsz & Hr & Hw); [lia|].
    exists (compacted b). split; [by apply MakeSpace_compact; [|lia]|].
    split_and!; try done.
    rewrite WritableBytes_wf, Hsz, Hw by done. unfold PrependableBytes. lia.
Qed.

Lemma MakeSpace_grows_or_compacts_234 :
  (wf b_234 /\ WritableBytes b_234 < 5 /\ allocatable 5 b_234) /\
  exists b',
    MakeSpace_ 5 b_234 = Ok b' /\ wf b' /\ readable b' = readable b_234.
Proof.
  assert (Hlt : WritableBytes b_234 < 5) by (vm_compute; reflexivity).
  split; [split; [exact b_234_wf|split; [exact Hlt|exact b_234_hello_allocatable]]|].
  destruct (MakeSpace_grows_or_compacts 5 b_234 b_234_wf Hlt b_234_hello_allocatable)
    as (b' & Hrun & Hwf & Hrd & _).
  exists b'. split_and!; assumption.
Defined.

(** X10: on every allocatable request [EnsureWriteable] returns with the
    payload byte for byte as it was and at least [len] writable bytes; the
    store never gets smaller, and it keeps its size whenever the writable
    tail together with the consumed front can hold [len] bytes. *)
Theorem EnsureWriteable_keeps_payload (len : Z) (b : Buffer) :
  wf b -> allocatable len b ->
  exists b',
    EnsureWriteable len b = Ok b' /\ wf b' /\
    readable b' = readable b /\
    ReadableBytes b' = ReadableBytes b /\
    len <= WritableBytes b' /\
    vec_size (buffer_ b) <= vec_size (buffer_ b') /\
    (len <= WritableBytes b + PrependableBytes b ->
     vec_size (buffer_ b') = vec_size (buffer_ b)).
Proof.
  intros Hwf Hfit. exists (ensured len b).
  destruct (ensured_keeps_payload len b Hwf Hfit) as (Hwf' & Hrd & Hrb & Hw).
  destruct (ensured_size len b Hwf Hfit) as (Hsz & Hsame & _).
  split; [by apply EnsureWriteable_ok|]. done.
Qed.

Lemma EnsureWriteable_keeps_payload_234 :
  (wf b_234 /\ allocatable 5 b_234) /\
  exists b',
    EnsureWriteable 5 b_234 = Ok b' /\ wf b' /\
    readable b' = readable b_234 /\
    ReadableBytes b' = ReadableBytes b_234 /\
    5 <= WritableBytes b' /\
    vec_size (buffer_ b_234) <= vec_size (buffer_ b') /\
    (5 <= WritableBytes b_234 + PrependableBytes b_234 ->
     vec_size (buffer_ b') = vec_size (buffer_ b_234)).
Proof.
  split; [split; [exact b_234_wf|exact b_234_hello_allocatable]|].
  exact (EnsureWriteable_keeps_payload 5 b_234 b_234_wf b_234_hello_allocatable).
Defined.

(** X11: a request whose [writePos + len + 1] exceeds [SIZE_MAX] is not
    refused.  The sum wraps around; for [len < SIZE_MAX] the store is cut
    down to the wrapped sum, which is less than [writePos], the assertion
    passes on the wrapped writable count and [EnsureWriteable] returns with
    the write cursor past the end of the store; for [len = SIZE_MAX] the
    store is cut down to [writePos] bytes and the assertion fails. *)
Theorem EnsureWriteable_wraps (len : Z) (b : Buffer) :
  wf b -> len <= SIZE_MAX -> SIZE_MAX < writePos_ b + len + 1 ->
  let cut := take (Z.to_nat (writePos_ b + len + 1 - 2 ^ 64)) (buffer_ b) in
  MakeSpace_ len b = Ok (set_buffer cut b) /\
  (len < SIZE_MAX ->
   EnsureWriteable len b = Ok (set_buffer cut b) /\
   vec_size cut < writePos_ b /\ ~ Inv (set_buffer cut b)) /\
  (len = SIZE_MAX ->
   EnsureWriteable len b = AssertFail /\ vec_size cut = writePos_ b).
Proof.
  intros Hwf Hlen Hwrap cut. pose proof (wf_bounds b Hwf) as Hb.
  pose proof (WritableBytes_wf b Hwf) as HW.
  destruct (MakeSpace_wraps len b Hwf Hlen Hwrap) as [Hms Hle].
  rewrite resize_le in Hms by (unfold vec_size in *; lia). fold cut in Hms.
  assert (Hcut : vec_size cut = writePos_ b + len + 1 - 2 ^ 64).
  { unfold cut, vec_size in *. rewrite length_take. unfold_consts. lia. }
  assert (Hlt : (WritableBytes b <? len) = true).
  { apply Z.ltb_lt. unfold_consts. lia. }
  split; [done|]. split.
  - intros Hlt'. split_and!.
    + unfold EnsureWriteable. rewrite Hlt, Hms. simpl.
      unfold WritableBytes, set_buffer; simpl. rewrite Hcut.
      rewrite size_t_neg by (unfold_consts; lia).
      destruct (Z.leb_spec len (writePos_ b + len + 1 - 2 ^ 64 - writePos_ b + 2 ^ 64));
        [done|lia].
    + unfold_consts. lia.
    + unfold Inv, set_buffer; simpl. unfold_consts. lia.
  - intros ->. split; [|unfold_consts; lia].
    unfold EnsureWriteable. rewrite Hlt, Hms. simpl.
    unfold WritableBytes, set_buffer; simpl. rewrite Hcut.
    replace (writePos_ b + SIZE_MAX + 1 - 2 ^ 64 - writePos_ b) with 0
      by (unfold_consts; lia).
    done.
Qed.

Lemma EnsureWriteable_wraps_digits :
  (wf b_digits /\ (2 ^ 64 - 5 <= SIZE_MAX) /\
   (SIZE_MAX < writePos_ b_digits + (2 ^ 64 - 5) + 1)) /\
  (2 ^ 64 - 5 < SIZE_MAX ->
   EnsureWriteable (2 ^ 64 - 5) b_digits =
     Ok (set_buffer
           (take (Z.to_nat (writePos_ b_digits + (2 ^ 64 - 5) + 1 - 2 ^ 64)) (buffer_ b_digits))
           b_digits)).
Proof.
  assert (H1 : 2 ^ 64 - 5 <= SIZE_MAX) by (vm_compute; discriminate).
  assert (H2 : SIZE_MAX < writePos_ b_digits + (2 ^ 64 - 5) + 1) by (vm_compute; reflexivity).
  split; [split; [exact b_digits_wf|split; [exact H1|exact H2]]|].
  intros Hlt.
  exact (proj1 (proj1 (proj2 (EnsureWriteable_wraps (2 ^ 64 - 5) b_digits b_digits_wf H1 H2)) Hlt)).
Defined.

(** ** Capacity *)

Lemma EnsureWriteable_size (len : Z) (b b' : Buffer) :
  wf b -> writePos_ b + len + 1 <= SIZE_MAX ->
  EnsureWriteable len b = Ok b' ->
  vec_size (buffer_ b) <= vec_size (buffer_ b').
Proof.
  intros Hwf Hnowrap Hrun.
  destruct (decide (allocatable len b)) as [Hfit|Hbig].
  - rewrite EnsureWriteable_ok in Hrun by done. injection Hrun as <-.
    by destruct (ensured_size len b Hwf Hfit) as (? & _).
  - unfold allocatable in Hbig.
    rewrite EnsureWriteable_throw in Hrun; [discriminate|done|lia|lia].
Qed.

Lemma Append_size (str : option (list byte)) (len : Z) (b b' : Buffer) :
  wf b -> writePos_ b + len + 1 <= SIZE_MAX ->
  Append str len b = Ok b' ->
  vec_size (buffer_ b) <= vec_size (buffer_ b').
Proof.
  intros Hwf Hnowrap Hrun. unfold Append in Hrun.
  destruct (cassert _); simpl in Hrun; try discriminate.
  destruct (EnsureWriteable len b) as [b1| |] eqn:Hens; simpl in Hrun; try discriminate.
  pose proof (EnsureWriteable_size len b b1 Hwf Hnowrap Hens) as Hsz.
  injection Hrun as <-. unfold HasWritten, set_writePos, set_buffer, vec_size in *; simpl.
  by rewrite length_copy_into.
Qed.

Lemma ReadFd_size (fd : read_source) (env : Env) (saveErrno : Z) (b : Buffer) (t : transfer) :
  wf b -> ReadFd fd env saveErrno b = Ok t ->
  vec_size (buffer_ b) <= vec_size (buffer_ (t_buf t)).
Proof.
  intros Hwf Hrun. pose proof (wf_bounds b Hwf) as Hb.
  pose proof (WritableBytes_wf b Hwf) as HW.
  destruct fd as [e|avail].
  - unfold ReadFd in Hrun; simpl in Hrun. by injection Hrun as <-.
  - destruct (ReadFd_delivers avail env saveErrno b Hwf) as (Hd & _ & Heq).
    rewrite Heq in Hrun. clear Heq.
    set (n := Z.min (vec_size avail) (WritableBytes b + BUFF_SIZE)) in *.
    set (d := take (Z.to_nat n) avail) in *.
    case_decide as Hfits.
    + injection Hrun as <-. cbn [t_buf].
      destruct (written_spec d b Hwf) as (_ & _ & _ & ->); [lia|done].
    + set (w := Z.to_nat (WritableBytes b)) in *.
      assert (Hw : vec_size (take w d) = WritableBytes b).
      { unfold vec_size in *. rewrite length_take. lia. }
      destruct (written_spec (take w d) b Hwf) as (Hwf1 & _ & _ & Hsz1); [lia|].
      destruct (Append _ _ _) as [b2| |] eqn:Happ; simpl in Hrun; try discriminate.
      injection Hrun as <-. cbn [t_buf]. rewrite <- Hsz1.
      apply (Append_size _ _ _ _ Hwf1) in Happ; [done|].
      unfold written; simpl. rewrite Hw.
      assert (n <= WritableBytes b + BUFF_SIZE) by (unfold n; lia).
      unfold_consts. lia.
Qed.

(** X12: no public operation that returns makes the store smaller, as long
    as [HasWritten] is told no more than is writable and no request for
    space wraps around: the capacity of a buffer only grows. *)
Theorem capacity_never_shrinks (o : op) (b b' : Buffer) :
  wf b -> typed o -> owed o b -> exec o b = Ok b' ->
  vec_size (buffer_ b) <= vec_size (buffer_ b').
Proof.
  intros Hwf Hty Howed Hrun.
  destruct o as [len|end_| | |len|str len|len|fd env saveErrno|fd env saveErrno];
    simpl in *.
  - unfold Retrieve in Hrun. destruct (cassert _); simpl in Hrun; [|done..].
    by injection Hrun as <-.
  - unfold RetrieveUntil, Retrieve in Hrun.
    destruct (cassert _); simpl in Hrun; [|done..].
    destruct (cassert _); simpl in Hrun; [|done..].
    by injection Hrun as <-.
  - injection Hrun as <-. unfold RetrieveAll, vec_size; simpl.
    by rewrite bzero_copy_into, length_copy_into.
  - injection Hrun as <-. unfold RetrieveAll, vec_size; simpl.
    by rewrite bzero_copy_into, length_copy_into.
  - by injection Hrun as <-.
  - by apply (Append_size str len b b').
  - by apply (EnsureWriteable_size len b b').
  - destruct (ReadFd fd env saveErrno b) as [t| |] eqn:Hread; simpl in Hrun;
      try discriminate.
    injection Hrun as <-. by apply (ReadFd_size fd env saveErrno b).
  - injection Hrun as <-. unfold WriteFd.
    destruct (write fd (errno env) _) as [len e]. by destruct (len <? 0).
Qed.

Lemma capacity_never_shrinks_234 :
  (wf b_234 /\ typed (OpAppend (Some digits) 10) /\
   owed (OpAppend (Some digits) 10) b_234) /\
  forall b', exec (OpAppend (Some digits) 10) b_234 = Ok b' ->
  vec_size (buffer_ b_234) <= vec_size (buffer_ b').
Proof.
  assert (Hty : typed (OpAppend (Some digits) 10)) by (vm_compute; split; discriminate).
  assert (Howed : owed (OpAppend (Some digits) 10) b_234) by (vm_compute; discriminate).
  split; [split; [exact b_234_wf|split; [exact Hty|exact Howed]]|].
  intros b'. exact (capacity_never_shrinks _ b_234 b' b_234_wf Hty Howed).
Defined.

(** ** Transfers at the edges *)

Lemma written_nil (b : Buffer) : written [] b = b.
Proof. destruct b as [s r w]. unfold written, vec_size; simpl. f_equal. lia. Qed.

(** X13: a read at end of file, where the descriptor has no byte to deliver,
    returns 0 after its one [readv] and leaves the buffer and the error slot
    exactly as they were. *)
Theorem ReadFd_end_of_file (env : Env) (saveErrno : Z) (b : Buffer) :
  wf b ->
  ReadFd (ReadDelivers []) env saveErrno b =
    Ok (mkTransfer 0 saveErrno b [SysReadv (WritableBytes b) BUFF_SIZE]).
Proof.
  intros Hwf. pose proof (wf_bounds b Hwf) as Hb.
  pose proof (WritableBytes_wf b Hwf) as HW.
  destruct (ReadFd_delivers [] env saveErrno b Hwf) as (_ & _ & ->).
  replace (Z.min (vec_size []) (WritableBytes b + BUFF_SIZE)) with 0
    by (unfold vec_size, BUFF_SIZE; simpl; lia).
  rewrite decide_True by lia. simpl. by rewrite written_nil.
Qed.

Lemma ReadFd_end_of_file_234 :
  wf b_234 /\
  ReadFd (ReadDelivers []) env0 7 b_234 =
    Ok (mkTransfer 0 7 b_234 [SysReadv (WritableBytes b_234) BUFF_SIZE]).
Proof. split; [exact b_234_wf|]. exact (ReadFd_end_of_file env0 7 b_234 b_234_wf). Defined.

(** X14: what [ReadFd] returns and leaves in the buffer depends on the
    descriptor alone: neither the bytes that happen to lie in the
    uninitialised scratch array nor the value [errno] had before the call
    reach the buffer, the returned count or the error slot. *)
Theorem ReadFd_ignores_stack_and_errno
    (fd : read_source) (env1 env2 : Env) (saveErrno : Z) (b : Buffer) :
  wf b ->
  ReadFd fd env1 saveErrno b = ReadFd fd env2 saveErrno b.
Proof.
  intros Hwf. destruct fd as [e|avail]; [done|].
  destruct (ReadFd_delivers avail env1 saveErrno b Hwf) as (_ & Hs1 & ->).
  destruct (ReadFd_delivers avail env2 saveErrno b Hwf) as (_ & Hs2 & ->).
  case_decide; [done|].
  unfold Append. simpl. by rewrite Hs1, Hs2.
Qed.

Lemma ReadFd_ignores_stack_and_errno_234 :
  wf b_234 /\
  ReadFd (ReadDelivers digits) env0 0 b_234 =
  ReadFd (ReadDelivers digits) (mkEnv 22 hello) 0 b_234.
Proof.
  split; [exact b_234_wf|].
  exact (ReadFd_ignores_stack_and_errno (ReadDelivers digits) env0 (mkEnv 22 hello)
           0 b_234 b_234_wf).
Defined.

(** X15: bytes pass through the buffer unchanged and in order: after a read
    that delivered the bytes [d], the next [WriteFd] offers the descriptor the
    old payload followed by [d], and a descriptor that takes them all leaves
    the buffer with nothing readable. *)
Theorem ReadFd_then_WriteFd
    (avail : list byte) (room : nat) (env env' : Env) (saveErrno saveErrno' : Z)
    (b : Buffer) :
  wf b ->
  vec_size (buffer_ b) + BUFF_SIZE + 1 <= max_size ->
  let n := Z.min (vec_size avail) (WritableBytes b + BUFF_SIZE) in
  let d := take (Z.to_nat n) avail in
  exists t,
    ReadFd (ReadDelivers avail) env saveErrno b = Ok t /\
    t_calls (WriteFd (WriteAccepts room) env' saveErrno' (t_buf t)) =
      [SysWrite (readable b ++ d)] /\
    t_ret (WriteFd (WriteAccepts room) env' saveErrno' (t_buf t)) =
      Z.min (Z.of_nat room) (ReadableBytes b + n) /\
    (ReadableBytes b + n <= Z.of_nat room ->
     ReadableBytes (t_buf (WriteFd (WriteAccepts room) env' saveErrno' (t_buf t))) = 0).
Proof.
  intros Hwf Hroom n d.
  pose proof (ReadFd_delivers_cases avail env saveErrno b Hwf) as Hcases.
  fold n in Hcases. fold d in Hcases.
  destruct (ReadFd (ReadDelivers avail) env saveErrno b) as [t| |];
    simpl in Hcases; [|done|lia].
  destruct Hcases as (_ & _ & Hwft & Hrb & Hrd & _).
  exists t. split; [done|].
  destruct (WriteFd_accepts env' room saveErrno' (t_buf t) Hwft) as (-> & Hn & _ & Hrb' & _).
  cbn [t_calls t_ret t_buf]. split_and!.
  - by rewrite Hrd.
  - by rewrite Hrb.
  - intros Hall. rewrite Hrb', Hrb. lia.
Qed.

Lemma ReadFd_then_WriteFd_234 :
  (wf b_234 /\ vec_size (buffer_ b_234) + BUFF_SIZE + 1 <= max_size) /\
  exists t,
    ReadFd (ReadDelivers digits) env0 0 b_234 = Ok t /\
    t_calls (WriteFd (WriteAccepts 100) env0 0 (t_buf t)) =
      [SysWrite (readable b_234 ++
                 take (Z.to_nat (Z.min (vec_size digits) (WritableBytes b_234 + BUFF_SIZE)))
                   digits)].
Proof.
  split; [split; [exact b_234_wf|exact b_234_room]|].
  destruct (ReadFd_then_WriteFd digits 100 env0 env0 0 0 b_234 b_234_wf b_234_room)
    as (t & Hrun & Hcalls & _).
  exists t. split; assumption.
Defined.

(** X16: a write that has nothing to do, because nothing is readable or the
    descriptor takes no byte, returns 0 and leaves the buffer and the error
    slot as they were. *)
Theorem WriteFd_nothing_to_do (room : nat) (env : Env) (saveErrno : Z) (b : Buffer) :
  wf b -> ReadableBytes b = 0 \/ room = 0%nat ->
  WriteFd (WriteAccepts room) env saveErrno b =
    mkTransfer 0 saveErrno b [SysWrite (readable b)].
Proof.
  intros Hwf Hnone. pose proof (wf_bounds b Hwf) as Hb.
  pose proof (ReadableBytes_wf b Hwf) as Hrb.
  destruct (WriteFd_accepts env room saveErrno b Hwf) as (-> & _).
  replace (Z.min (Z.of_nat room) (ReadableBytes b)) with 0 by lia.
  destruct b as [s r w]. unfold set_readPos; simpl. do 2 f_equal. lia.
Qed.

Lemma WriteFd_nothing_to_do_spent :
  (wf b_spent /\ (ReadableBytes b_spent = 0 \/ 5%nat = 0%nat)) /\
  WriteFd (WriteAccepts 5) env0 0 b_spent =
    mkTransfer 0 0 b_spent [SysWrite (readable b_spent)].
Proof.
  assert (H0 : ReadableBytes b_spent = 0 \/ 5%nat = 0%nat) by (left; reflexivity).
  split; [split; [exact b_spent_wf|exact H0]|].
  exact (WriteFd_nothing_to_do 5 env0 0 b_spent b_spent_wf H0).
Defined.

(** ** Reset, then reuse *)

(** X17: after [RetrieveAll] the whole store is writable again, so an append
    of no more bytes than the store holds resizes nothing, and the store is
    then the appended bytes followed by zero bytes only: nothing of the old
    contents is left. *)
Theorem RetrieveAll_then_Append (str : list byte) (len : Z) (b : Buffer) :
  wf b -> 0 <= len <= vec_size str -> len <= vec_size (buffer_ b) ->
  WritableBytes (RetrieveAll b) = vec_size (buffer_ b) /\
  Append (Some str) len (RetrieveAll b) =
    Ok (mkBuffer
          (take (Z.to_nat len) str ++
           replicate (length (buffer_ b) - Z.to_nat len) x00)
          0 len).
Proof.
  intros Hwf Hlen Hfits. pose proof (wf_bounds b Hwf) as Hb.
  pose proof (RetrieveAll_wf b Hwf) as Hwf0.
  assert (Hb0 : RetrieveAll b = mkBuffer (replicate (length (buffer_ b)) x00) 0 0).
  { unfold RetrieveAll. by rewrite bzero_all. }
  assert (HW : WritableBytes (RetrieveAll b) = vec_size (buffer_ b)).
  { rewrite WritableBytes_wf by done. rewrite Hb0. unfold vec_size; simpl.
    rewrite length_replicate. lia. }
  split; [done|].
  assert (He : ensured len (RetrieveAll b) = RetrieveAll b).
  { unfold ensured. by rewrite decide_True by lia. }
  rewrite Append_written; [|done|done|].
  - rewrite He, Hb0. unfold written; simpl. f_equal. f_equal.
    + rewrite copy_into_spec.
      * simpl. rewrite drop_replicate, length_take. do 2 f_equal.
        unfold vec_size in *. lia.
      * rewrite length_replicate, length_take. unfold vec_size in *. lia.
    + unfold vec_size in *. rewrite length_take. lia.
  - intros Hneed. rewrite HW in Hneed. unfold PrependableBytes in Hneed.
    rewrite Hb0 in Hneed. simpl in Hneed. lia.
Qed.

Lemma RetrieveAll_then_Append_234 :
  (wf b_234 /\ 0 <= 5 <= vec_size hello /\ 5 <= vec_size (buffer_ b_234)) /\
  WritableBytes (RetrieveAll b_234) = vec_size (buffer_ b_234) /\
  Append (Some hello) 5 (RetrieveAll b_234) =
    Ok (mkBuffer
          (take (Z.to_nat 5) hello ++
           replicate (length (buffer_ b_234) - Z.to_nat 5) x00)
          0 5).
Proof.
  assert (H5 : 0 <= 5 <= vec_size hello) by (vm_compute; split; discriminate).
  assert (H8 : 5 <= vec_size (buffer_ b_234)) by (vm_compute; discriminate).
  split; [split; [exact b_234_wf|split; [exact H5|exact H8]]|].
  exact (RetrieveAll_then_Append hello 5 b_234 b_234_wf H5 H8).
Defined.
